(** * Fadecandy: colour library, Kinetis debug port and server core

    A shallow embedding of [firmware/hcolor.h] (high dynamic range
    colours, fixed-point interpolation, temporal dithering) and of
    [testjig/production/arm_kinetis_debug.cpp] (SWD bring-up and flash
    mass erase of the Kinetis target), and models of the parts of the
    server that the specification describes (the FC driver's state
    machine, the OPC layer), with the properties the specification
    states about them. *)

From Stdlib Require Import ZArith List Bool String Lia.
From Stdlib Require Strings.Byte.
Import ListNotations.

Local Open Scope Z_scope.

Set Warnings "-abstract-large-number".

(** ** C integer conversions

  Values of the fixed-width C types are integers in the range of the
  type; a conversion to a narrower type wraps around. *)

Module CInt.

Definition to_uint8 (x : Z) : Z := x mod 2 ^ 8.
Definition to_uint16 (x : Z) : Z := x mod 2 ^ 16.
Definition to_uint32 (x : Z) : Z := x mod 2 ^ 32.
Definition to_int16 (x : Z) : Z := (x + 2 ^ 15) mod 2 ^ 16 - 2 ^ 15.
Definition to_int32 (x : Z) : Z := (x + 2 ^ 31) mod 2 ^ 32 - 2 ^ 31.

Definition is_uint8 (x : Z) : Prop := 0 <= x < 2 ^ 8.
Definition is_uint16 (x : Z) : Prop := 0 <= x < 2 ^ 16.
Definition is_int16 (x : Z) : Prop := - 2 ^ 15 <= x < 2 ^ 15.

End CInt.

(** ** [hcolor.h] *)

Module Color.
Import CInt.

(** [struct HColor { uint16_t r, g, b; }] *)
Record HColor : Set := mkHColor { r : Z; g : Z; b : Z }.

Definition color_ok (c : HColor) : Prop :=
  is_uint16 (r c) /\ is_uint16 (g c) /\ is_uint16 (b c).

(** [HColor16]: the arguments are converted to [uint16_t]. *)
Definition HColor16 (r g b : Z) : HColor :=
  mkHColor (to_uint16 r) (to_uint16 g) (to_uint16 b).

(** One component of [HColor8]: [uint16_t(v | (unsigned(v) << 8))],
    the shift done on 32-bit unsigned. *)
Definition expand8 (v : Z) : Z :=
  to_uint16 (Z.lor v (to_uint32 (Z.shiftl (to_uint32 v) 8))).

Definition HColor8 (r g b : Z) : HColor :=
  mkHColor (expand8 r) (expand8 g) (expand8 b).

(** [HColor8(uint32_t rgb)]: 8-bit colours packed into a 24-bit word. *)
Definition HColor8_packed (rgb : Z) : HColor :=
  HColor8 (to_uint8 (Z.shiftr (Z.land rgb 0xFF0000) 16))
          (to_uint8 (Z.shiftr (Z.land rgb 0x00FF00) 8))
          (to_uint8 (Z.land rgb 0x0000FF)).

(** Saturating addition, [operator +]. *)
Definition sat_add (x y : Z) : Z :=
  to_uint16 (Z.min 0xffff (to_int32 (to_uint32 (x + y)))).

Definition add (a c : HColor) : HColor :=
  mkHColor (sat_add (r a) (r c)) (sat_add (g a) (g c)) (sat_add (b a) (b c)).

(** One component of [lerp8]: [uint16_t((x * invA + y * alpha) >> 8)],
    computed on 32-bit [int]. *)
Definition lerp8_comp (x y alpha : Z) : Z :=
  let invA := to_int32 (0x100 - alpha) in
  to_uint16
    (Z.shiftr (to_int32 (to_int32 (x * invA) + to_int32 (y * alpha))) 8).

Definition lerp8 (c1 c2 : HColor) (alpha : Z) : HColor :=
  mkHColor (lerp8_comp (r c1) (r c2) alpha)
           (lerp8_comp (g c1) (g c2) alpha)
           (lerp8_comp (b c1) (b c2) alpha).

(** [struct HPixel { HColor color; int16_t residual[3]; }] *)
Record HPixel : Set := mkHPixel {
  color : HColor;
  residual0 : Z;
  residual1 : Z;
  residual2 : Z
}.

Definition pixel_ok (p : HPixel) : Prop :=
  color_ok (color p) /\
  is_int16 (residual0 p) /\ is_int16 (residual1 p) /\ is_int16 (residual2 p).

(** The body of [HPixel::dither] for one component: the sum with the
    residual, the rounded and clamped 8-bit value, and the error that
    is stored back into the [int16_t] residual. The right shift of a
    negative [int] is arithmetic, as the compilers of the firmware
    define it. *)
Definition sum16 (c s : Z) : Z := to_int32 (c + s).

Definition round8 (x16 : Z) : Z :=
  Z.min 0xff (Z.max 0 (Z.shiftr (to_int32 (x16 + 0x80)) 8)).

Definition error16 (x16 x8 : Z) : Z :=
  to_int16 (to_int32 (x16 - to_int32 (x8 * 257))).

(** [uint32_t HPixel::dither()]: the returned word and the pixel with
    its residuals updated. *)
Definition dither (p : HPixel) : Z * HPixel :=
  let r16 := sum16 (r (color p)) (residual0 p) in
  let g16 := sum16 (g (color p)) (residual1 p) in
  let b16 := sum16 (b (color p)) (residual2 p) in
  let r8 := round8 r16 in
  let g8 := round8 g16 in
  let b8 := round8 b16 in
  (to_uint32 (Z.lor (Z.lor (Z.shiftl r8 16) (Z.shiftl g8 8)) b8),
   mkHPixel (color p) (error16 r16 r8) (error16 g16 g8) (error16 b16 b8)).

(** A pixel that carries no residual yet. *)
Definition fresh (c : HColor) : HPixel := mkHPixel c 0 0 0.

Definition set_color (c : HColor) (p : HPixel) : HPixel :=
  mkHPixel c (residual0 p) (residual1 p) (residual2 p).

(** A run of frames on one pixel: before each call of [dither] the
    application stores the frame's colour. *)
Fixpoint frames (cs : list HColor) (p : HPixel) : HPixel :=
  match cs with
  | [] => p
  | c :: cs' => frames cs' (snd (dither (set_color c p)))
  end.

(** What the specification says of the dithering, in its own words:
    the component is rounded to 8 bits and clamped to [0, 255], the
    three values are packed into a 24-bit word, and the residual is
    the error left after the 8-bit value is expanded back to 16 bits
    (times 257). No machine conversion appears here. *)
Definition clamp8 (x : Z) : Z := Z.min 255 (Z.max 0 x).

Definition quantized (c s : Z) : Z := clamp8 (Z.shiftr (c + s + 0x80) 8).

Definition quant_error (c s : Z) : Z := (c + s) - 257 * quantized c s.

Definition pack24 (r8 g8 b8 : Z) : Z := r8 * 2 ^ 16 + g8 * 2 ^ 8 + b8.

Definition residual_within (lo hi : Z) (p : HPixel) : Prop :=
  lo <= residual0 p <= hi /\ lo <= residual1 p <= hi /\ lo <= residual2 p <= hi.

Definition sums_within (lo hi : Z) (p : HPixel) : Prop :=
  lo <= r (color p) + residual0 p <= hi /\
  lo <= g (color p) + residual1 p <= hi /\
  lo <= b (color p) + residual2 p <= hi.

End Color.


(** ** [hcolor.h]: frames over time and the pixel buffer *)

Module Display.
Import CInt Color.

(** The words [dither] returns over a run of frames, the colour of each
    frame stored before its call. *)
Fixpoint emitted (cs : list HColor) (p : HPixel) : list Z :=
  match cs with
  | [] => []
  | c :: cs' =>
      fst (dither (set_color c p)) ::
      emitted cs' (snd (dither (set_color c p)))
  end.

(** The three bytes of a 24-bit RGB word. *)
Definition red (w : Z) : Z := Z.land (Z.shiftr w 16) 0xFF.
Definition green (w : Z) : Z := Z.land (Z.shiftr w 8) 0xFF.
Definition blue (w : Z) : Z := Z.land w 0xFF.

Definition sum (l : list Z) : Z := fold_right Z.add 0 l.

(** What the dithering makes of an 8-bit level [v] that [HColor8]
    expanded and that is held from frame 0 on, starting without a
    residual: the level emitted at frame [i], and the residual carried
    into frame [i]. Levels up to 127 and the level 255 are emitted as
    they are; the level 128 alternates between 129 and 127; a level
    from 129 to 254 is emitted one too high at frame 0 and as it is
    from then on. *)
Definition held_level (v : Z) (i : nat) : Z :=
  if (v <=? 127) || (v =? 255) then v
  else if v =? 128 then (if Nat.even i then 129 else 127)
  else (if (i =? 0)%nat then v + 1 else v).

Definition held_residual (v : Z) (i : nat) : Z :=
  if (v <=? 127) || (v =? 255) then 0
  else if v =? 128 then (if Nat.even i then 0 else -257)
  else (if (i =? 0)%nat then 0 else -257).

(** The calls [HPixelBuffer::show] makes on the LED driver
    ([OctoWS2811], declared only): [setPixel (i, rgb)] and [show ()]. *)
Inductive LedCall : Set :=
| setPixel (i : Z) (rgb : Z)
| show_leds.

(** The loop [for (unsigned i = 0; i < tCount; ++i)] of
    [HPixelBuffer::show] from index [i] on, over the pixels from [i]
    on: the calls made and the pixels as the loop leaves them. *)
Fixpoint show_from (i : Z) (pixels : list HPixel) : list LedCall * list HPixel :=
  match pixels with
  | [] => ([], [])
  | p :: rest =>
      let (w, p') := dither p in
      let (calls, rest') := show_from (to_uint32 (i + 1)) rest in
      (setPixel i w :: calls, p' :: rest')
  end.

(** [HPixelBuffer<tCount>::show], the buffer a list of [tCount] pixels. *)
Definition show (pixels : list HPixel) : list LedCall * list HPixel :=
  let (calls, pixels') := show_from 0 pixels in
  (calls ++ [show_leds], pixels').

(** A call that hands the LED driver a 24-bit RGB word. *)
Definition rgb24_call (call : LedCall) : Prop :=
  match call with
  | setPixel _ w => 0 <= w < 2 ^ 24
  | show_leds => True
  end.

(** Residuals as the [int16_t] fields hold them. *)
Definition residuals_ok (p : HPixel) : Prop :=
  is_int16 (residual0 p) /\ is_int16 (residual1 p) /\ is_int16 (residual2 p).

(** A pixel that [dither] keeps well-formed: a 16-bit colour and
    residuals in the interval that the dithering never leaves. *)
Definition settled (p : HPixel) : Prop :=
  color_ok (color p) /\ residual_within (-383) 127 p.

End Display.


(** ** [arm_kinetis_debug.cpp] *)

Module Debug.
Import CInt.

(** The constants the two functions use by name. They come from
    [arm_kinetis_reg.h], and the retry count of a poll that names none
    from the declaration of [apReadPoll] in [arm_debug.h]; neither
    header is among the sources, so the values are parameters. *)
Record RegMap : Set := mkRegMap {
  REG_MDM_IDR : Z;
  REG_MDM_STATUS : Z;
  REG_MDM_CONTROL : Z;
  REG_MDM_CONTROL_CORE_HOLD_RESET : Z;
  REG_MDM_CONTROL_SYS_RESET_REQ : Z;
  REG_MDM_CONTROL_MASS_ERASE : Z;
  REG_MDM_STATUS_SYS_NRESET : Z;
  REG_MDM_STATUS_FLASH_READY : Z;
  REG_MDM_STATUS_FLASH_ERASE_ACK : Z;
  REG_MDM_STATUS_MASS_ERASE_ENABLE : Z;
  REG_SCB_DHCSR : Z;
  REG_SIM_SCGC5 : Z;
  REG_SIM_SCGC6 : Z;
  REG_SIM_SCGC6_FTM0 : Z;
  REG_SIM_SCGC6_FTM1 : Z;
  REG_SIM_SCGC6_FTFL : Z;
  default_retries : nat
}.

Inductive LogLevel : Set := LOG_ERROR | LOG_NORMAL.

(** What the target answers to one transaction on the debug port: the
    transaction fails, or it succeeds (with the word read, for a read). *)
Inductive Reply : Set := Fault | Ack (data : Z).

Definition acked (rep : Reply) : bool :=
  match rep with Ack _ => true | Fault => false end.

(** The behaviour of the hardware: its answer to the n-th transaction
    of a run. The code is sequential and deterministic, so every
    behaviour of the registers it talks to is one such sequence. *)
Definition Wire : Set := nat -> Reply.

(** What a run does, as seen from outside: the transactions with their
    outcome, and the lines logged. *)
Inductive Event : Set :=
| ApRead (addr : Z) (rep : Reply)
| ApWrite (addr data : Z) (ok : bool)
| MemStore (addr data : Z) (ok : bool)
| MemLoad (addr : Z) (rep : Reply)
| InitMemPort (ok : bool)
| MemStoreAndVerify (addr data : Z) (ok : bool)
| Log (level : LogLevel) (msg : string) (args : list Z).

(** The state a run threads: the number of transactions so far and the
    events so far, most recent first. *)
Record Port : Set := mkPort { tick : nat; trace : list Event }.

Definition init : Port := mkPort 0 [].

Definition M (A : Type) : Type := Port -> A * Port.

Definition ret {A} (a : A) : M A := fun p => (a, p).

Definition bind {A B} (c : M A) (k : A -> M B) : M B :=
  fun p => let (a, p') := c p in k a p'.

Notation "x <- c ;; k" := (bind c (fun x => k))
  (at level 61, c at next level, right associativity).
Notation "c ;; k" := (bind c (fun _ => k))
  (at level 61, right associativity).

(** [if (!c) return false;] with the rest of the function as [k]. *)
Definition require {R} (failed : R) (c : M bool) (k : M R) : M R :=
  ok <- c ;; if ok then k else ret failed.

(** The same for a call that reads a word through a reference. *)
Definition reading {R} (failed : R) (c : M Reply) (k : Z -> M R) : M R :=
  rep <- c ;; match rep with Ack data => k data | Fault => ret failed end.

Section Target.
Variable regs : RegMap.
Variable wire : Wire.

Definition transact (ev : Reply -> Event) : M Reply :=
  fun p => let rep := wire (tick p) in
           (rep, mkPort (S (tick p)) (ev rep :: trace p)).

Definition log (level : LogLevel) (msg : string) (args : list Z) : M unit :=
  fun p => (tt, mkPort (tick p) (Log level msg args :: trace p)).

(** The transport of [arm_debug.cpp], not among the sources: each call
    is one transaction whose outcome the hardware decides. *)
Definition apRead (addr : Z) : M Reply := transact (ApRead addr).

Definition apWrite (addr data : Z) : M bool :=
  rep <- transact (fun rep => ApWrite addr data (acked rep)) ;; ret (acked rep).

Definition memStore (addr data : Z) : M bool :=
  rep <- transact (fun rep => MemStore addr data (acked rep)) ;; ret (acked rep).

Definition memLoad (addr : Z) : M Reply := transact (MemLoad addr).

Definition initMemPort : M bool :=
  rep <- transact (fun rep => InitMemPort (acked rep)) ;; ret (acked rep).

Definition memStoreAndVerify (addr data : Z) : M bool :=
  rep <- transact (fun rep => MemStoreAndVerify addr data (acked rep)) ;;
  ret (acked rep).

(** Modelled from the spec: [apReadPoll], defined in [arm_debug.cpp],
    which is not among the sources. The specification describes it as
    polling retries with a bounded iteration count that escalate to a
    logged error: the register is read until the masked word is the
    expected one, at most [retries] times; a failed read gives up at
    once; when the budget is spent an error is logged. The result is
    the last word read, or nothing when the poll failed. *)
Fixpoint apReadPoll (addr mask expected : Z) (retries : nat) : M (option Z) :=
  match retries with
  | O =>
      log LOG_ERROR "ARMDebug: Timed out while polling" [addr; mask; expected] ;;
      ret None
  | S retries' =>
      rep <- apRead addr ;;
      match rep with
      | Fault => ret None
      | Ack data =>
          if Z.land data mask =? Z.land (to_uint32 expected) mask
          then ret (Some data)
          else apReadPoll addr mask expected retries'
      end
  end.

Definition polling {R} (failed : R) (c : M (option Z)) (k : Z -> M R) : M R :=
  r <- c ;; match r with Some data => k data | None => ret failed end.

(** How the halt loop of [startup] ends: it is left with the values of
    [retries] and [dhcsr], or one of its transactions failed and
    [startup] returns false from inside it. *)
Inductive LoopEnd : Set :=
| LoopLeft (retries dhcsr : Z)
| LoopReturnedFalse.

(** The [do { ... } while (!(dhcsr & (1 << 17)) && retries)] loop, with
    [retries] the unsigned counter at the top of the body. One unit of
    fuel pays for one iteration. *)
Fixpoint haltLoop (fuel : nat) (retries : Z) : M (option LoopEnd) :=
  match fuel with
  | O => ret None
  | S fuel' =>
      let retries := to_uint32 (retries - 1) in
      require (Some LoopReturnedFalse) (memStore (REG_SCB_DHCSR regs) 0xA05F0003) (
      reading (Some LoopReturnedFalse) (memLoad (REG_SCB_DHCSR regs)) (fun dhcsr =>
      if (Z.land dhcsr (Z.shiftl 1 17) =? 0) && negb (retries =? 0)
      then haltLoop fuel' retries
      else ret (Some (LoopLeft retries dhcsr))))
  end.

(** [bool ARMKinetisDebug::startup()]. The result is [None] when the
    fuel does not pay for the halt loop. *)
Definition startup (fuel : nat) : M (option bool) :=
  let resetRetries := 2000%nat in
  reading (Some false) (apRead (REG_MDM_IDR regs)) (fun idr =>
  if negb (idr =? 0x001C0000) then
    log LOG_ERROR "ARMKinetisDebug: Didn't find a supported MDM-AP peripheral" [] ;;
    ret (Some false)
  else
  require (Some false)
    (apWrite (REG_MDM_CONTROL regs) (REG_MDM_CONTROL_CORE_HOLD_RESET regs)) (
  polling (Some false)
    (apReadPoll (REG_MDM_STATUS regs) (REG_MDM_STATUS_SYS_NRESET regs) (-1)
                resetRetries) (fun _ =>
  require (Some false)
    (apWrite (REG_MDM_CONTROL regs) (REG_MDM_CONTROL_SYS_RESET_REQ regs)) (
  polling (Some false)
    (apReadPoll (REG_MDM_STATUS regs) (REG_MDM_STATUS_SYS_NRESET regs) 0
                (default_retries regs)) (fun _ =>
  require (Some false) (apWrite (REG_MDM_CONTROL regs) 0) (
  require (Some false) initMemPort (
  polling (Some false)
    (apReadPoll (REG_MDM_STATUS regs)
                (Z.lor (REG_MDM_STATUS_SYS_NRESET regs)
                       (REG_MDM_STATUS_FLASH_READY regs)) (-1)
                resetRetries) (fun _ =>
  require (Some false) (memStore (REG_SCB_DHCSR regs) 0xA05F0001) (
  halted <- haltLoop fuel 50 ;;
  match halted with
  | None => ret None
  | Some LoopReturnedFalse => ret (Some false)
  | Some (LoopLeft retries dhcsr) =>
      if retries =? 0 then
        log LOG_ERROR
            "ARMKinetisDebug: Failed to put CPU in debug halt state. (DHCSR: %08x)"
            [dhcsr] ;;
        ret (Some false)
      else
      require (Some false) (memStore (REG_SIM_SCGC5 regs) 0x00043F82) (
      require (Some false)
        (memStore (REG_SIM_SCGC6 regs)
                  (Z.lor (Z.lor (REG_SIM_SCGC6_FTM0 regs) (REG_SIM_SCGC6_FTM1 regs))
                         (REG_SIM_SCGC6_FTFL regs))) (
      require (Some false) (memStoreAndVerify 0x20000000 0x31415927) (
      require (Some false) (memStoreAndVerify 0x20000000 0x76543210) (
      ret (Some true)))))
  end))))))))).

(** [bool ARMKinetisDebug::flashMassErase()]. *)
Definition flashMassErase : M bool :=
  reading false (apRead (REG_MDM_STATUS regs)) (fun status =>
  if Z.land status (REG_MDM_STATUS_FLASH_READY regs) =? 0 then
    log LOG_ERROR "FLASH: Flash controller not ready before mass erase" [] ;;
    ret false
  else if negb (Z.land status (REG_MDM_STATUS_FLASH_ERASE_ACK regs) =? 0) then
    log LOG_ERROR "FLASH: Mass erase already in progress" [] ;;
    ret false
  else if Z.land status (REG_MDM_STATUS_MASS_ERASE_ENABLE regs) =? 0 then
    log LOG_ERROR "FLASH: Mass erase is disabled!" [] ;;
    ret false
  else
  log LOG_NORMAL "FLASH: Beginning mass erase operation" [] ;;
  require false
    (apWrite (REG_MDM_CONTROL regs)
             (Z.lor (REG_MDM_CONTROL_CORE_HOLD_RESET regs)
                    (REG_MDM_CONTROL_MASS_ERASE regs))) (
  r <- apReadPoll (REG_MDM_STATUS regs) (REG_MDM_STATUS_FLASH_ERASE_ACK regs) 0
                  10000 ;;
  match r with
  | None =>
      log LOG_ERROR "FLASH: Timed out waiting for mass erase to complete" [] ;;
      ret false
  | Some status =>
      if Z.land status (REG_MDM_STATUS_FLASH_READY regs) =? 0 then
        log LOG_ERROR "FLASH: Flash controller not ready after mass erase" [] ;;
        ret false
      else ret true
  end)).

End Target.

(** A register map to run the model on: the MDM-AP, debug and SIM
    registers as the reference manual of the MK20DX128 numbers them. *)
Definition mk20dx128 : RegMap :=
  {| REG_MDM_IDR := 0x010000FC;
     REG_MDM_STATUS := 0x01000000;
     REG_MDM_CONTROL := 0x01000004;
     REG_MDM_CONTROL_CORE_HOLD_RESET := 0x10;
     REG_MDM_CONTROL_SYS_RESET_REQ := 0x08;
     REG_MDM_CONTROL_MASS_ERASE := 0x01;
     REG_MDM_STATUS_SYS_NRESET := 0x08;
     REG_MDM_STATUS_FLASH_READY := 0x02;
     REG_MDM_STATUS_FLASH_ERASE_ACK := 0x01;
     REG_MDM_STATUS_MASS_ERASE_ENABLE := 0x20;
     REG_SCB_DHCSR := 0xE000EDF0;
     REG_SIM_SCGC5 := 0x40048038;
     REG_SIM_SCGC6 := 0x4004803C;
     REG_SIM_SCGC6_FTM0 := 0x01000000;
     REG_SIM_SCGC6_FTM1 := 0x02000000;
     REG_SIM_SCGC6_FTFL := 0x00000001;
     default_retries := 50 |}.

(** A target that follows [startup] through the resets and raises
    S_HALT (bit 17 of DHCSR) on the [k]-th attempt to halt it. The
    first transaction reads the IDR, the fifth is the poll for the
    reset to take hold, and the read-back of attempt [j] is
    transaction [8 + 2 * j]. *)
Definition halting_on (k : nat) : Wire :=
  fun n =>
    if (n =? 0)%nat then Ack 0x001C0000
    else if (n =? 4)%nat then Ack 0x02
    else if (n <? 8 + 2 * k)%nat then Ack 0x0A
    else Ack 0x00030003.

(** A target whose MDM-AP identifies itself and then never reports
    the system out of reset. *)
Definition stuck_in_reset : Wire :=
  fun n => if (n =? 0)%nat then Ack 0x001C0000 else Ack 0x00.

(** A target ready for a mass erase whose erase never completes. *)
Definition stuck_erasing : Wire :=
  fun n => if (n =? 0)%nat then Ack 0x22 else Ack 0x23.

(** Readings of a trace. *)
Definition is_ap_read (e : Event) : bool :=
  match e with ApRead _ _ => true | _ => false end.

Definition is_mem_load (e : Event) : bool :=
  match e with MemLoad _ _ => true | _ => false end.

Definition is_ap_write (e : Event) : bool :=
  match e with ApWrite _ _ _ => true | _ => false end.

Definition is_fault (e : Event) : bool :=
  match e with
  | ApRead _ rep | MemLoad _ rep => negb (acked rep)
  | ApWrite _ _ ok | MemStore _ _ ok | MemStoreAndVerify _ _ ok => negb ok
  | InitMemPort ok => negb ok
  | Log _ _ _ => false
  end.

Definition is_error (e : Event) : bool :=
  match e with Log LOG_ERROR _ _ => true | _ => false end.

Definition count (f : Event -> bool) (evs : list Event) : nat :=
  List.length (filter f evs).

(** The register reads made through the access port: those of the
    polls, and the single reads in front of them. *)
Definition ap_reads (evs : list Event) : nat := count is_ap_read evs.

(** The read-backs of DHCSR: one per attempt to halt the core. *)
Definition halt_attempts (evs : list Event) : nat := count is_mem_load evs.

Definition ap_writes (evs : list Event) : list Event := filter is_ap_write evs.

Definition faulted (evs : list Event) : bool := existsb is_fault evs.

Definition error_logged (evs : list Event) : bool := existsb is_error evs.

(** A failure is accounted for when a transaction failed or an error
    was logged. *)
Definition explained (evs : list Event) : bool :=
  faulted evs || error_logged evs.

(** [spec c Q]: from every state, [c] adds some events [evs] to the
    trace, and [Q] holds of its result and of [evs]. *)
Definition spec {A} (c : M A) (Q : A -> list Event -> Prop) : Prop :=
  forall p, exists evs,
    trace (snd (c p)) = evs ++ trace p /\ Q (fst (c p)) evs.

(** More readings of a trace. The events that change the target: *)
Definition is_write (e : Event) : bool :=
  match e with
  | ApWrite _ _ _ | MemStore _ _ _ | MemStoreAndVerify _ _ _ => true
  | InitMemPort _ => true
  | _ => false
  end.

Definition written (evs : list Event) : bool := existsb is_write evs.

(** The line [startup] logs when it gives up halting the core. *)
Definition halt_failure_message : string :=
  "ARMKinetisDebug: Failed to put CPU in debug halt state. (DHCSR: %08x)".

Definition is_halt_failure (e : Event) : bool :=
  match e with
  | Log LOG_ERROR msg _ => String.eqb msg halt_failure_message
  | _ => false
  end.

Definition halt_failure_logged (evs : list Event) : bool :=
  existsb is_halt_failure evs.

(** The most recent read-back of DHCSR. *)
Definition last_readback (evs : list Event) : option Event :=
  hd_error (filter is_mem_load evs).

(** S_HALT, bit 17 of DHCSR, as the loop tests it. *)
Definition s_halt (dhcsr : Z) : bool :=
  negb (Z.land dhcsr (Z.shiftl 1 17) =? 0).

(** The words written to the access port, oldest first, each with its
    address. *)
Definition write_word (e : Event) : Z * Z :=
  match e with
  | ApWrite addr data _ => (addr, data)
  | _ => (0, 0)
  end.

Definition ap_written (evs : list Event) : list (Z * Z) :=
  rev (map write_word (ap_writes evs)).

(** Events that neither change the target nor read DHCSR back nor
    report the halt failure: those of a poll. *)
Definition quiet (evs : list Event) : Prop :=
  filter is_mem_load evs = [] /\ ap_writes evs = [] /\
  written evs = false /\ halt_failure_logged evs = false.

(** The resets [startup] writes to the MDM control register, in the
    order of the source. *)
Definition reset_sequence (regs : RegMap) : list (Z * Z) :=
  [(REG_MDM_CONTROL regs, REG_MDM_CONTROL_CORE_HOLD_RESET regs);
   (REG_MDM_CONTROL regs, REG_MDM_CONTROL_SYS_RESET_REQ regs);
   (REG_MDM_CONTROL regs, 0)].

(** A status word has a flag when it shares a bit with the flag's mask. *)
Definition has_flag (status mask : Z) : Prop := Z.land status mask <> 0.

(** The line a poll logs when its budget is spent, and the traces
    that hold it. *)
Definition poll_timeout_message : string := "ARMDebug: Timed out while polling".

Definition is_poll_timeout (e : Event) : bool :=
  match e with
  | Log LOG_ERROR msg _ => String.eqb msg poll_timeout_message
  | _ => false
  end.

Definition poll_timed_out (evs : list Event) : bool :=
  existsb is_poll_timeout evs.

(** The line [flashMassErase] logs when its poll fails. *)
Definition erase_timeout_message : string :=
  "FLASH: Timed out waiting for mass erase to complete".

(** A target that follows [startup] through the resets and never
    halts. *)
Definition never_halting : Wire :=
  fun n =>
    if (n =? 0)%nat then Ack 0x001C0000
    else if (n =? 4)%nat then Ack 0x02
    else Ack 0x0A.

End Debug.


(** ** [startup.c] *)

Module Startup.
Import CInt.









(** [void *_sbrk (int incr)] on the break [__brkval]: the pointer
    returned and the new break. *)
Definition _sbrk (incr : Z) (__brkval : Z) : Z * Z :=
  let prev := __brkval in
  (prev, to_uint32 (__brkval + incr)).

(** A run of calls of [_sbrk]: the pointers returned, in order, and
    the break left. *)
Fixpoint sbrk_run (incrs : list Z) (brk : Z) : list Z * Z :=
  match incrs with
  | [] => ([], brk)
  | incr :: rest =>
      let (prev, brk') := _sbrk incr brk in
      let (ptrs, final) := sbrk_run rest brk' in
      (prev :: ptrs, final)
  end.

Definition total (l : list Z) : Z := fold_right Z.add 0 l.


(** The break stays a 32-bit address through a run of calls. *)
Definition break_in_range (incrs : list Z) (brk : Z) : Prop :=
  forall i, (i <= List.length incrs)%nat ->
            0 <= brk + total (firstn i incrs) < 2 ^ 32.

End Startup.


(** ** The FC LED controller driver *)

Module FCDriver.

Local Open Scope nat_scope.

(** Modelled from the spec: the driver of the FC LED controller
    ([fcdevice.cpp]), which is not among the sources. What follows is
    the state machine of section 4.2.1 with its framebuffer
    discipline, the latching of colour correction of section 4.2 and
    4.2.3, and the in-order completion of section 5. *)
Inductive State : Set :=
| AttachedUnconfigured
| UploadingLUT
| Ready
| FrameInFlight
| Terminated.

(** What the driver submits on the device's OUT endpoint. *)
Inductive Transfer : Set := LutUpload | PixelFrame.

(** What happens to a device between attach and teardown. *)
Inductive Trigger : Set :=
| WritePixels
| SetGlobalColorCorrection
| Completion
| UsbError
| HotplugLeave.

(** Modelled from the spec: the per-device state. [submitted] lists
    the transfers submitted since attach, oldest first; [completions]
    counts the completion callbacks delivered; [back_dirty] says the
    back buffer holds a frame not yet submitted, [lut_latched] that a
    colour correction waits for its upload. *)
Record Device : Set := mkDevice {
  state : State;
  configured : bool;
  back_dirty : bool;
  lut_latched : bool;
  submitted : list Transfer;
  completions : nat
}.

(** The device that [attach] creates. *)
Definition attach : Device := mkDevice AttachedUnconfigured false false false [] 0.

(** Modelled from the spec: the device is idle and looks for work; a
    latched upload goes before a dirty back buffer ("ordered before
    pixel frames"), and either one puts a transfer in flight. *)
Definition submit_pending (d : Device) : Device :=
  if lut_latched d then
    mkDevice FrameInFlight (configured d) (back_dirty d) false
             (submitted d ++ [LutUpload]) (completions d)
  else if back_dirty d then
    mkDevice FrameInFlight (configured d) false false
             (submitted d ++ [PixelFrame]) (completions d)
  else
    mkDevice Ready (configured d) false false (submitted d) (completions d).

(** A write while a transfer is in flight only marks what is pending. *)
Definition mark (t : Trigger) (d : Device) : Device :=
  match t with
  | WritePixels =>
      mkDevice (state d) (configured d) true (lut_latched d)
               (submitted d) (completions d)
  | SetGlobalColorCorrection =>
      mkDevice (state d) (configured d) (back_dirty d) true
               (submitted d) (completions d)
  | _ => d
  end.

(** Modelled from the spec: one row of the state table per case. *)
Definition step (d : Device) (t : Trigger) : Device :=
  match state d, t with
  | Terminated, _ => d
  | _, UsbError | _, HotplugLeave =>
      mkDevice Terminated (configured d) (back_dirty d) (lut_latched d)
               (submitted d) (completions d)
  | AttachedUnconfigured, WritePixels =>
      mkDevice UploadingLUT (configured d) true false
               (submitted d ++ [LutUpload]) (completions d)
  | AttachedUnconfigured, SetGlobalColorCorrection =>
      mkDevice UploadingLUT (configured d) (back_dirty d) false
               (submitted d ++ [LutUpload]) (completions d)
  | AttachedUnconfigured, Completion => d
  | UploadingLUT, Completion =>
      submit_pending
        (mkDevice Ready true (back_dirty d) (lut_latched d)
                  (submitted d) (S (completions d)))
  | UploadingLUT, _ => mark t d
  | Ready, Completion => d
  | Ready, _ => submit_pending (mark t d)
  | FrameInFlight, Completion =>
      submit_pending
        (mkDevice Ready (configured d) (back_dirty d) (lut_latched d)
                  (submitted d) (S (completions d)))
  | FrameInFlight, _ => mark t d
  end.

Definition run (ts : list Trigger) : Device := fold_left step ts attach.

(** Modelled from the spec: transfers on one endpoint complete in
    submission order, so what the device has received is the
    completed prefix of what was submitted. *)
Definition received (d : Device) : list Transfer :=
  firstn (completions d) (submitted d).

(** What holds of a device at every moment of its life. Before the
    first upload completes nothing but that upload has been
    submitted; from then on the device is configured, the upload
    heads the submissions and has completed. *)
Definition invariant (d : Device) : Prop :=
  completions d <= List.length (submitted d) /\
  (configured d = true ->
   hd_error (submitted d) = Some LutUpload /\ 1 <= completions d) /\
  (configured d = false ->
   completions d = 0 /\ (submitted d = [] \/ submitted d = [LutUpload])) /\
  match state d with
  | AttachedUnconfigured => configured d = false /\ submitted d = []
  | UploadingLUT =>
      configured d = false /\ submitted d = [LutUpload]
  | Ready => configured d = true /\ List.length (submitted d) = completions d
  | FrameInFlight =>
      configured d = true /\ List.length (submitted d) = S (completions d)
  | Terminated => True
  end.

End FCDriver.

(** ** The OPC protocol layer and its dispatch *)

Module OPC.

Local Open Scope nat_scope.

Import Init.Byte.

(** Modelled from the spec: one OPC message, section 4.3
    ([opcsink.cpp] is not among the sources). *)
Record OPCMessage : Set := mkMessage {
  channel : byte;
  command : byte;
  payload : list byte
}.

Definition u16be (hi lo : byte) : nat :=
  256 * Strings.Byte.to_nat hi + Strings.Byte.to_nat lo.

Definition byte_of_nat (n : nat) : byte :=
  match Strings.Byte.of_nat (n mod 256) with
  | Some b => b
  | None => x00
  end.

(** Modelled from the spec: the wire format,
    [channel:u8, command:u8, length:u16-big-endian, payload]. *)
Definition encode (m : OPCMessage) : list byte :=
  channel m :: command m ::
  byte_of_nat (List.length (payload m) / 256) ::
  byte_of_nat (List.length (payload m)) ::
  payload m.

(** Modelled from the spec: the framer takes the complete messages off
    the front of the accumulator and leaves the rest. One unit of
    fuel pays for one message. *)
Fixpoint frame (fuel : nat) (acc : list byte) : list OPCMessage * list byte :=
  match fuel with
  | O => ([], acc)
  | S fuel' =>
      match acc with
      | ch :: cmd :: hi :: lo :: rest =>
          let n := u16be hi lo in
          if n <=? List.length rest then
            let (ms, left) := frame fuel' (skipn n rest) in
            (mkMessage ch cmd (firstn n rest) :: ms, left)
          else ([], acc)
      | _ => ([], acc)
      end
  end.

(** Modelled from the spec: a mapping entry, section 4.4. Whether an
    entry takes part in a broadcast is left open by the
    specification, so each entry says so itself; the colour scale is
    handed to the device with the pixel. *)
Record MapEntry : Set := mkEntry {
  entry_channel : byte;
  srcStart : nat;
  srcCount : nat;
  dstStart : nat;
  dstDevice : nat;
  colorScale : option (Z * Z * Z);
  permits_broadcast : bool
}.

Definition Pixel : Set := byte * byte * byte.

(** What the dispatch asks of the device drivers. *)
Inductive DeviceAction : Set :=
| WritePixels (device offset : nat) (rgb : Pixel) (scale : option (Z * Z * Z))
| SetGlobalColorCorrection (body : list byte)
| SetFirmwareConfig (body : list byte).

(** The server as the dispatch sees it: the mapping and the pixel
    count of each device. *)
Record Server : Set := mkServer {
  mapping : list MapEntry;
  capacity : nat -> nat
}.

(** A payload of 3 N bytes is N pixels. *)
Fixpoint pixels (bs : list byte) : list Pixel :=
  match bs with
  | r :: g :: b :: bs' => (r, g, b) :: pixels bs'
  | _ => []
  end.

Definition entry_matches (c : byte) (e : MapEntry) : bool :=
  Strings.Byte.eqb (entry_channel e) c ||
  (Strings.Byte.eqb c x00 && permits_broadcast e).

(** Modelled from the spec: the mapping engine, section 4.4, entries
    in their order. *)
Definition map_entry (srv : Server) (ps : list Pixel) (e : MapEntry)
  : list DeviceAction :=
  flat_map
    (fun i =>
       match nth_error ps (srcStart e + i) with
       | Some rgb =>
           if dstStart e + i <? capacity srv (dstDevice e)
           then [WritePixels (dstDevice e) (dstStart e + i) rgb (colorScale e)]
           else []
       | None => []
       end)
    (seq 0 (srcCount e)).

Definition set_pixel_colors (srv : Server) (c : byte) (ps : list Pixel)
  : list DeviceAction :=
  flat_map (fun e => if entry_matches c e then map_entry srv ps e else [])
           (mapping srv).

(** Modelled from the spec: a System Exclusive payload starts with a
    big-endian system ID; of the Fadecandy system, 0x0001, the next
    byte selects the sub-message. *)
Definition system_exclusive (body : list byte) : list DeviceAction :=
  match body with
  | hi :: lo :: rest =>
      if u16be hi lo =? 1 then
        match rest with
        | sub :: args =>
            if Strings.Byte.eqb sub x01 then [SetGlobalColorCorrection args]
            else if Strings.Byte.eqb sub x02 then [SetFirmwareConfig args]
            else []
        | [] => []
        end
      else []
  | _ => []
  end.

(** Modelled from the spec: the dispatch of one message
    ([fcserver.cpp] is not among the sources). *)
Definition dispatch (srv : Server) (m : OPCMessage) : list DeviceAction :=
  if Strings.Byte.eqb (command m) x00 then
    set_pixel_colors srv (channel m) (pixels (payload m))
  else if Strings.Byte.eqb (command m) xff then
    system_exclusive (payload m)
  else [].

(** A connection: its accumulator, while it is open. *)
Record Connection : Set := mkConnection { accumulator : list byte }.

Definition accepted : Connection := mkConnection [].

(** Modelled from the spec: the errors a client can cause, section 7;
    over-length is the only one of the protocol. *)
Inductive ClientError : Set := OverLength.

(** What a read leaves: the connection, still open, and the device
    traffic of the messages completed; or the connection closed. *)
Inductive ReadResult : Set :=
| Open (conn : Connection) (traffic : list DeviceAction)
| Closed (why : ClientError).

Definition cap : Z := 8 + 65535.

(** Modelled from the spec: the bytes read join the accumulator; a
    connection that buffers more than the cap is closed; otherwise
    the complete messages are dispatched in order and the rest stays
    buffered. *)
Definition on_read (srv : Server) (conn : Connection) (data : list byte)
  : ReadResult :=
  let acc := accumulator conn ++ data in
  if (cap <? Z.of_nat (List.length acc))%Z then Closed OverLength
  else
    let (ms, left) := frame (List.length acc) acc in
    Open (mkConnection left) (flat_map (dispatch srv) ms).

(** The commands and system IDs the protocol layer recognizes. *)
Definition recognized_command (c : byte) : bool :=
  Strings.Byte.eqb c x00 || Strings.Byte.eqb c xff.

Definition system_id (body : list byte) : option nat :=
  match body with
  | hi :: lo :: _ => Some (u16be hi lo)
  | _ => None
  end.

(** What is left in an accumulator after framing: no complete message. *)
Definition incomplete (acc : list byte) : Prop :=
  match acc with
  | _ :: _ :: hi :: lo :: rest => List.length rest < u16be hi lo
  | _ => True
  end.

(** A message whose command or system ID the layer does not
    recognize. *)
Definition unrecognized (m : OPCMessage) : Prop :=
  recognized_command (command m) = false \/
  (command m = xff /\
   exists id, system_id (payload m) = Some id /\ id <> 1).

End OPC.

(** ** Facts about the C conversions *)

Module CIntFacts.
Import CInt.

Lemma to_uint16_small x : 0 <= x < 65536 -> to_uint16 x = x.
Proof. intros H. unfold to_uint16. apply Z.mod_small. lia. Qed.

Lemma to_uint32_small x : 0 <= x < 4294967296 -> to_uint32 x = x.
Proof. intros H. unfold to_uint32. apply Z.mod_small. lia. Qed.

Lemma to_int16_small x : -32768 <= x < 32768 -> to_int16 x = x.
Proof.
  intros H. unfold to_int16.
  rewrite Z.mod_small by lia. lia.
Qed.

Lemma to_int32_small x : -2147483648 <= x < 2147483648 -> to_int32 x = x.
Proof.
  intros H. unfold to_int32.
  rewrite Z.mod_small by lia. lia.
Qed.

(** Bits of a value below [2 ^ n] vanish from position [n] on. *)
Lemma testbit_above lo n k :
  0 <= lo < 2 ^ n -> 0 <= n <= k -> Z.testbit lo k = false.
Proof.
  intros Hlo Hk.
  destruct (Z.eq_dec lo 0) as [->|Hne]; [apply Z.bits_0|].
  apply Z.bits_above_log2; [lia|].
  assert (Z.log2 lo < n); [|lia].
  apply Z.log2_lt_pow2; lia.
Qed.

(** Or-ing a shifted value with a value that fits below the shift is
    an addition: no bit is shared. *)
Lemma lor_shiftl_add hi lo n :
  0 <= n -> 0 <= lo < 2 ^ n ->
  Z.lor (Z.shiftl hi n) lo = hi * 2 ^ n + lo.
Proof.
  intros Hn Hlo.
  rewrite <- (Z.shiftl_mul_pow2 hi n Hn).
  rewrite <- (Z.add_lor_land (Z.shiftl hi n) lo).
  assert (Z.land (Z.shiftl hi n) lo = 0) as ->; [|lia].
  apply Z.bits_inj'. intros k Hk.
  rewrite Z.land_spec, Z.bits_0.
  destruct (Z_lt_le_dec k n) as [Hlt|Hge].
  - rewrite Z.shiftl_spec_low by assumption. reflexivity.
  - rewrite (testbit_above lo n k) by lia. apply andb_false_r.
Qed.

Lemma shiftr8_div x : Z.shiftr x 8 = x / 256.
Proof. rewrite Z.shiftr_div_pow2 by lia. reflexivity. Qed.

End CIntFacts.

(** ** Facts about [hcolor.h] *)

Module ColorFacts.
Import CInt CIntFacts Color.

Lemma expand8_lor v : is_uint8 v -> expand8 v = Z.lor v (Z.shiftl v 8).
Proof.
  unfold is_uint8, expand8. intros Hv.
  rewrite (to_uint32_small v) by lia.
  rewrite Z.shiftl_mul_pow2 by lia.
  rewrite (to_uint32_small (v * 2 ^ 8)) by lia.
  rewrite Z.lor_comm, <- (Z.shiftl_mul_pow2 v 8) by lia.
  rewrite lor_shiftl_add by lia.
  rewrite to_uint16_small by lia.
  reflexivity.
Qed.

Lemma expand8_mul v : is_uint8 v -> expand8 v = v * 257.
Proof.
  intros Hv. rewrite expand8_lor by assumption.
  unfold is_uint8 in Hv.
  rewrite Z.lor_comm, lor_shiftl_add by lia. lia.
Qed.

(** C2. Expanding an 8-bit component to 16 bits replicates the byte:
    for every 8-bit value v the component built by [HColor8] is
    v | (v << 8), which is v * 257; FF 80 00 becomes
    (FFFF, 8080, 0000) and 10 20 30 becomes (1010, 2020, 3030). *)
Theorem HColor8_replicates_byte (rv gv bv : Z) :
  is_uint8 rv -> is_uint8 gv -> is_uint8 bv ->
  HColor8 rv gv bv =
    mkHColor (Z.lor rv (Z.shiftl rv 8)) (Z.lor gv (Z.shiftl gv 8))
             (Z.lor bv (Z.shiftl bv 8)) /\
  HColor8 rv gv bv = mkHColor (rv * 257) (gv * 257) (bv * 257) /\
  HColor8 0xFF 0x80 0x00 = mkHColor 0xFFFF 0x8080 0x0000 /\
  HColor8 0x10 0x20 0x30 = mkHColor 0x1010 0x2020 0x3030.
Proof.
  intros Hr Hg Hb. unfold HColor8. repeat split.
  - now rewrite !expand8_lor.
  - now rewrite !expand8_mul.
Qed.

Lemma HColor8_replicates_byte_witness :
  HColor8 0xFF 0x80 0x00 = mkHColor (0xFF * 257) (0x80 * 257) (0x00 * 257).
Proof.
  apply (HColor8_replicates_byte 0xFF 0x80 0x00); unfold is_uint8; lia.
Defined.

Lemma lerp8_comp_0 x y : is_uint16 x -> lerp8_comp x y 0 = x.
Proof.
  unfold is_uint16, lerp8_comp. intros Hx.
  replace (0x100 - 0) with 256 by reflexivity.
  rewrite (to_int32_small 256) by lia.
  rewrite Z.mul_0_r, (to_int32_small 0) by lia.
  rewrite (to_int32_small (x * 256)) by lia.
  rewrite Z.add_0_r, (to_int32_small (x * 256)) by lia.
  rewrite shiftr8_div, Z.div_mul by lia.
  apply to_uint16_small. lia.
Qed.

Lemma lerp8_comp_256 x y : is_uint16 y -> lerp8_comp x y 0x100 = y.
Proof.
  unfold is_uint16, lerp8_comp. intros Hy.
  replace (0x100 - 0x100) with 0 by reflexivity.
  rewrite (to_int32_small 0) by lia.
  rewrite Z.mul_0_r, (to_int32_small 0) by lia.
  rewrite (to_int32_small (y * 0x100)) by lia.
  rewrite Z.add_0_l, (to_int32_small (y * 0x100)) by lia.
  rewrite shiftr8_div. change 0x100 with 256. rewrite Z.div_mul by lia.
  apply to_uint16_small. lia.
Qed.

(** C10. The fixed-point interpolation hits its endpoints exactly:
    for all colours c1 and c2, [lerp8 c1 c2 0] is c1 and
    [lerp8 c1 c2 0x100] is c2, in every component. *)
Theorem lerp8_endpoints (c1 c2 : HColor) :
  color_ok c1 -> color_ok c2 ->
  lerp8 c1 c2 0 = c1 /\ lerp8 c1 c2 0x100 = c2.
Proof.
  intros (Hr1 & Hg1 & Hb1) (Hr2 & Hg2 & Hb2). unfold lerp8. split.
  - rewrite !lerp8_comp_0 by assumption. now destruct c1.
  - rewrite !lerp8_comp_256 by assumption. now destruct c2.
Qed.

Lemma lerp8_endpoints_witness :
  lerp8 (mkHColor 0xFFFF 0x8080 0) (mkHColor 0x1010 0x2020 0x3030) 0
    = mkHColor 0xFFFF 0x8080 0 /\
  lerp8 (mkHColor 0xFFFF 0x8080 0) (mkHColor 0x1010 0x2020 0x3030) 0x100
    = mkHColor 0x1010 0x2020 0x3030.
Proof.
  apply (lerp8_endpoints (mkHColor 0xFFFF 0x8080 0)
                         (mkHColor 0x1010 0x2020 0x3030));
    unfold color_ok, is_uint16; simpl; lia.
Defined.

(** The three regimes of the rounding: below the range the result is
    clamped to 0, above it to 255, and in between it is the nearest
    multiple of 256. *)
Lemma quantized_cases c s :
  (c + s < -128 /\ quantized c s = 0) \/
  (-128 <= c + s < 65408 /\ 0 <= quantized c s <= 255 /\
   -128 <= c + s - 256 * quantized c s <= 127) \/
  (65408 <= c + s /\ quantized c s = 255).
Proof.
  unfold quantized, clamp8. rewrite shiftr8_div.
  change 0x80 with 128.
  pose proof (Z.div_mod (c + s + 128) 256 ltac:(lia)) as Hdm.
  pose proof (Z.mod_pos_bound (c + s + 128) 256 ltac:(lia)) as Hm.
  lia.
Qed.

Lemma quantized_range c s : 0 <= quantized c s <= 255.
Proof. unfold quantized, clamp8. lia. Qed.

Lemma round8_quantized c s :
  is_uint16 c -> is_int16 s -> round8 (sum16 c s) = quantized c s.
Proof.
  unfold is_uint16, is_int16, round8, sum16, quantized, clamp8.
  intros Hc Hs.
  rewrite (to_int32_small (c + s)) by lia.
  rewrite (to_int32_small (c + s + 0x80)) by lia.
  reflexivity.
Qed.

(** The error always fits the [int16_t] it is stored in. *)
Lemma error16_exact c s :
  is_uint16 c -> is_int16 s ->
  error16 (sum16 c s) (round8 (sum16 c s)) = quant_error c s.
Proof.
  intros Hc Hs. rewrite round8_quantized by assumption.
  unfold is_uint16, is_int16 in *. unfold error16, sum16, quant_error.
  pose proof (quantized_cases c s) as Hq.
  rewrite (to_int32_small (c + s)) by lia.
  rewrite (to_int32_small (quantized c s * 257)) by lia.
  rewrite (to_int32_small (c + s - quantized c s * 257)) by lia.
  rewrite to_int16_small by lia.
  lia.
Qed.

Lemma pack24_lor r8 g8 b8 :
  0 <= r8 <= 255 -> 0 <= g8 <= 255 -> 0 <= b8 <= 255 ->
  to_uint32 (Z.lor (Z.lor (Z.shiftl r8 16) (Z.shiftl g8 8)) b8)
    = pack24 r8 g8 b8.
Proof.
  intros Hr Hg Hb. unfold pack24.
  assert (Z.lor (Z.shiftl r8 16) (Z.shiftl g8 8)
          = Z.shiftl (r8 * 2 ^ 8 + g8) 8) as ->.
  { rewrite (Z.shiftl_mul_pow2 g8 8) by lia.
    rewrite (lor_shiftl_add r8 (g8 * 2 ^ 8) 16) by lia.
    rewrite Z.shiftl_mul_pow2 by lia. lia. }
  rewrite lor_shiftl_add by lia.
  rewrite to_uint32_small by lia. lia.
Qed.

(** C1. Temporal dithering is a bit-depth reduction that carries its
    residual: for every pixel with 16-bit components c and carried
    residuals s, [dither] returns the 24-bit packing of the
    per-component values r8 = clamp ((c + s + 0x80) >> 8) to [0, 255]
    and leaves (c + s) - 257 * r8 as the new residual of that
    component; the colour itself is untouched. *)
Theorem dither_carries_residual (p : HPixel) :
  pixel_ok p ->
  let c := color p in
  let r8 := quantized (r c) (residual0 p) in
  let g8 := quantized (g c) (residual1 p) in
  let b8 := quantized (b c) (residual2 p) in
  fst (dither p) = pack24 r8 g8 b8 /\
  0 <= fst (dither p) < 2 ^ 24 /\
  snd (dither p) =
    mkHPixel c (r c + residual0 p - 257 * r8)
               (g c + residual1 p - 257 * g8)
               (b c + residual2 p - 257 * b8).
Proof.
  intros ((Hr & Hg & Hb) & H0 & H1 & H2). cbv zeta.
  pose proof (quantized_range (r (color p)) (residual0 p)) as Qr.
  pose proof (quantized_range (g (color p)) (residual1 p)) as Qg.
  pose proof (quantized_range (b (color p)) (residual2 p)) as Qb.
  assert (fst (dither p) =
          pack24 (quantized (r (color p)) (residual0 p))
                 (quantized (g (color p)) (residual1 p))
                 (quantized (b (color p)) (residual2 p))) as Hret.
  { unfold dither; cbn [fst].
    rewrite !round8_quantized by assumption.
    now apply pack24_lor. }
  split; [exact Hret|]. split.
  - rewrite Hret. unfold pack24. lia.
  - unfold dither; cbn [snd].
    rewrite !error16_exact by assumption.
    reflexivity.
Qed.

Lemma dither_carries_residual_witness :
  fst (dither (mkHPixel (mkHColor 0xFFFF 0x8080 0x0000) 100 (-383) 127))
    = pack24 (quantized 0xFFFF 100) (quantized 0x8080 (-383))
             (quantized 0x0000 127).
Proof.
  apply (dither_carries_residual
           (mkHPixel (mkHColor 0xFFFF 0x8080 0x0000) 100 (-383) 127)).
  unfold pixel_ok, color_ok, is_uint16, is_int16; simpl; lia.
Defined.

(** One component, one frame: a residual in [-383, 127] stays there. *)
Lemma quant_error_bounded c s :
  is_uint16 c -> -383 <= s <= 127 -> -383 <= quant_error c s <= 127.
Proof.
  unfold is_uint16, quant_error. intros Hc Hs.
  pose proof (quantized_cases c s). lia.
Qed.

Lemma dither_exact c p :
  color_ok c -> residual_within (-383) 127 p ->
  snd (dither (set_color c p)) =
    mkHPixel c (quant_error (r c) (residual0 p))
               (quant_error (g c) (residual1 p))
               (quant_error (b c) (residual2 p)).
Proof.
  intros (Hr & Hg & Hb) (H0 & H1 & H2).
  unfold dither, set_color; cbn [snd color residual0 residual1 residual2].
  rewrite !error16_exact; trivial; unfold is_int16; lia.
Qed.

Lemma dither_preserves_bound c p :
  color_ok c -> residual_within (-383) 127 p ->
  residual_within (-383) 127 (snd (dither (set_color c p))).
Proof.
  intros Hc Hp. rewrite dither_exact by assumption.
  destruct Hc as (Hr & Hg & Hb), Hp as (H0 & H1 & H2).
  unfold residual_within; cbn [residual0 residual1 residual2].
  repeat split; apply quant_error_bounded; assumption.
Qed.

Lemma frames_preserve_bound cs :
  Forall color_ok cs ->
  forall p, residual_within (-383) 127 p ->
            residual_within (-383) 127 (frames cs p).
Proof.
  induction 1 as [|c cs Hc _ IH]; intros p Hp; cbn [frames].
  - exact Hp.
  - apply IH. now apply dither_preserves_bound.
Qed.

(** C5. Dither residuals stay bounded. Start from zero residuals and
    run [dither] on any sequence of 16-bit colours: after every call
    each residual lies in [-383, 127]; at the next call the sum of
    colour and residual lies in [-383, 65662], and what is stored in
    the [int16_t] residual is the exact error, not a wrapped one. *)
Theorem dither_residual_bounded (c0 : HColor) (cs : list HColor) (c : HColor) :
  Forall color_ok cs -> color_ok c ->
  let p := frames cs (fresh c0) in
  residual_within (-383) 127 p /\
  sums_within (-383) 65662 (set_color c p) /\
  snd (dither (set_color c p)) =
    mkHPixel c (quant_error (r c) (residual0 p))
               (quant_error (g c) (residual1 p))
               (quant_error (b c) (residual2 p)) /\
  residual_within (-383) 127 (snd (dither (set_color c p))).
Proof.
  intros Hcs Hc. cbv zeta.
  assert (residual_within (-383) 127 (frames cs (fresh c0))) as Hp.
  { apply frames_preserve_bound; [assumption|].
    unfold residual_within, fresh; simpl; lia. }
  split; [exact Hp|]. split; [|split].
  - destruct Hc as (Hr & Hg & Hb), Hp as (H0 & H1 & H2).
    unfold is_uint16 in *.
    unfold sums_within, set_color; cbn [color r g b residual0 residual1 residual2].
    lia.
  - now apply dither_exact.
  - now apply dither_preserves_bound.
Qed.

Lemma dither_residual_bounded_witness :
  residual_within (-383) 127
    (frames [mkHColor 65152 127 65535; mkHColor 0 65408 300]
            (fresh (mkHColor 0 0 0))).
Proof.
  apply (dither_residual_bounded (mkHColor 0 0 0)
           [mkHColor 65152 127 65535; mkHColor 0 65408 300]
           (mkHColor 1 2 3)).
  - repeat constructor; unfold is_uint16; simpl; lia.
  - repeat constructor; unfold is_uint16; simpl; lia.
Defined.

(** Both ends of the interval are reached from zero residuals. *)
Example residual_bounds_attained :
  residual0 (frames [mkHColor 65152 0 0] (fresh (mkHColor 0 0 0))) = -383 /\
  residual0 (frames [mkHColor 127 0 0] (fresh (mkHColor 0 0 0))) = 127.
Proof. split; reflexivity. Qed.

End ColorFacts.

(** ** Facts about [arm_kinetis_debug.cpp] *)

Module DebugFacts.
Import CInt CIntFacts Debug.

Local Open Scope nat_scope.

Lemma count_app f (a b : list Event) : count f (a ++ b) = count f a + count f b.
Proof. unfold count. now rewrite filter_app, length_app. Qed.

Lemma ap_reads_app a b : ap_reads (a ++ b) = ap_reads a + ap_reads b.
Proof. apply count_app. Qed.

Lemma halt_attempts_app a b :
  halt_attempts (a ++ b) = halt_attempts a + halt_attempts b.
Proof. apply count_app. Qed.

Lemma faulted_app a b : faulted (a ++ b) = faulted a || faulted b.
Proof. apply existsb_app. Qed.

Lemma error_logged_app a b :
  error_logged (a ++ b) = error_logged a || error_logged b.
Proof. apply existsb_app. Qed.

Lemma explained_app a b : explained (a ++ b) = explained a || explained b.
Proof.
  unfold explained. rewrite faulted_app, error_logged_app.
  destruct (faulted a), (faulted b), (error_logged a); reflexivity.
Qed.

Lemma spec_ret {A} (a : A) (Q : A -> list Event -> Prop) :
  Q a [] -> spec (ret a) Q.
Proof. intros H p. exists []. split; [reflexivity | exact H]. Qed.

Lemma spec_bind {A B} (c : M A) (k : A -> M B) Q1 (Q : B -> list Event -> Prop) :
  spec c Q1 ->
  (forall a evs1, Q1 a evs1 -> spec (k a) (fun b evs2 => Q b (evs2 ++ evs1))) ->
  spec (bind c k) Q.
Proof.
  intros Hc Hk p. unfold bind.
  destruct (Hc p) as (evs1 & Ht1 & H1).
  destruct (c p) as [a p1]; cbn [fst snd] in *.
  destruct (Hk a evs1 H1 p1) as (evs2 & Ht2 & H2).
  exists (evs2 ++ evs1). split; [|exact H2].
  rewrite Ht2, Ht1. apply app_assoc.
Qed.

Lemma spec_weaken {A} (c : M A) (Q Q' : A -> list Event -> Prop) :
  spec c Q -> (forall a evs, Q a evs -> Q' a evs) -> spec c Q'.
Proof.
  intros Hc HQ p. destruct (Hc p) as (evs & Ht & H).
  exists evs. split; [exact Ht | now apply HQ].
Qed.

Section Target.
Variable regs : RegMap.
Variable wire : Wire.

Lemma spec_transact ev :
  spec (transact wire ev) (fun rep evs => evs = [ev rep]).
Proof. intros p. exists [ev (wire (tick p))]. split; reflexivity. Qed.

Lemma spec_log level msg args :
  spec (log level msg args) (fun _ evs => evs = [Log level msg args]).
Proof. intros p. exists [Log level msg args]. split; reflexivity. Qed.

Lemma spec_apRead addr :
  spec (apRead wire addr) (fun rep evs => evs = [ApRead addr rep]).
Proof. apply spec_transact. Qed.

Lemma spec_memLoad addr :
  spec (memLoad wire addr) (fun rep evs => evs = [MemLoad addr rep]).
Proof. apply spec_transact. Qed.

Lemma spec_apWrite addr data :
  spec (apWrite wire addr data) (fun ok evs => evs = [ApWrite addr data ok]).
Proof.
  eapply spec_bind; [apply spec_transact|].
  intros rep evs ->. apply spec_ret. reflexivity.
Qed.

Lemma spec_memStore addr data :
  spec (memStore wire addr data) (fun ok evs => evs = [MemStore addr data ok]).
Proof.
  eapply spec_bind; [apply spec_transact|].
  intros rep evs ->. apply spec_ret. reflexivity.
Qed.

Lemma spec_initMemPort :
  spec (initMemPort wire) (fun ok evs => evs = [InitMemPort ok]).
Proof.
  eapply spec_bind; [apply spec_transact|].
  intros rep evs ->. apply spec_ret. reflexivity.
Qed.

Lemma spec_memStoreAndVerify addr data :
  spec (memStoreAndVerify wire addr data)
       (fun ok evs => evs = [MemStoreAndVerify addr data ok]).
Proof.
  eapply spec_bind; [apply spec_transact|].
  intros rep evs ->. apply spec_ret. reflexivity.
Qed.

(** A poll reads the register at most as often as its budget says,
    touches nothing else, and a poll that fails is accounted for. *)
Lemma spec_apReadPoll addr mask expected retries :
  spec (apReadPoll wire addr mask expected retries)
       (fun r evs =>
          ap_reads evs <= retries /\ halt_attempts evs = 0 /\
          ap_writes evs = [] /\
          (r = None -> explained evs = true)).
Proof.
  induction retries as [|n IH]; cbn [apReadPoll].
  - eapply spec_bind; [apply spec_log|].
    intros _ evs ->. apply spec_ret. now cbn.
  - eapply spec_bind; [apply spec_apRead|].
    intros rep evs ->. destruct rep as [|data].
    + apply spec_ret. cbn. repeat split; auto; lia.
    + destruct (Z.land data mask =? Z.land (to_uint32 expected) mask)%Z.
      * apply spec_ret. cbn. repeat split; auto; try lia. discriminate.
      * eapply spec_weaken; [apply IH|].
        intros r evs (Hr & Hl & Hw & He).
        rewrite ap_reads_app, halt_attempts_app, explained_app.
        unfold ap_writes in *. rewrite filter_app, Hw, Hl.
        cbn. repeat split; try lia.
        intros ->. rewrite He by reflexivity. reflexivity.
Qed.

(** The halt loop entered with [retries] between 1 and the fuel is
    left before the fuel runs out, after at most [retries] attempts. *)
Lemma spec_haltLoop fuel : forall retries,
  (1 <= retries <= Z.of_nat fuel)%Z -> (retries < 2 ^ 32)%Z ->
  spec (haltLoop regs wire fuel retries)
       (fun r evs =>
          r <> None /\ ap_reads evs = 0 /\
          (Z.of_nat (halt_attempts evs) <= retries)%Z /\
          (r = Some LoopReturnedFalse -> explained evs = true)).
Proof.
  induction fuel as [|fuel' IH]; intros retries Hr Hlt; [lia|].
  cbn [haltLoop]. unfold require, reading.
  rewrite (to_uint32_small (retries - 1)) by lia.
  eapply spec_bind; [apply spec_memStore|]. intros ok evs1 ->.
  destruct ok; [|apply spec_ret; cbn; repeat split; (discriminate || lia || auto)].
  eapply spec_bind; [apply spec_memLoad|]. intros rep evs2 ->.
  destruct rep as [|dhcsr];
    [apply spec_ret; cbn; repeat split; (discriminate || lia || auto)|].
  destruct (Z.eqb_spec (retries - 1) 0) as [Hz|Hnz];
    destruct (Z.land dhcsr (Z.shiftl 1 17) =? 0)%Z; cbn [andb negb];
    try (apply spec_ret; cbn; repeat split; (discriminate || lia)).
  eapply spec_weaken; [apply (IH (retries - 1)%Z); lia|].
  intros r evs (Hn & Ha & Hh & He).
  rewrite !ap_reads_app, !halt_attempts_app, !explained_app, Ha.
  cbn. repeat split; try assumption; try lia.
  intros Hf. rewrite (He Hf). reflexivity.
Qed.

End Target.

Ltac prim :=
  first [ apply spec_apRead | apply spec_apWrite | apply spec_memStore
        | apply spec_memLoad | apply spec_initMemPort
        | apply spec_memStoreAndVerify | apply spec_log
        | apply spec_apReadPoll
        | apply spec_haltLoop; lia ].

(** Runs a function to each of its return points, collecting what is
    known of the events on the way. *)
Ltac run :=
  repeat lazymatch goal with
  | |- spec (bind _ _) _ =>
      eapply spec_bind; [prim | cbv beta; intros ? ? ?]
  | |- spec (ret _) _ => apply spec_ret
  | |- spec (if ?c then _ else _) _ => destruct c
  | |- spec (match ?r with _ => _ end) _ => destruct r
  end.

Ltac known :=
  repeat match goal with
  | H : _ /\ _ |- _ => destruct H
  | H : ?evs = _ :: _ |- _ => subst evs
  end.

Ltac account :=
  rewrite ?ap_reads_app, ?halt_attempts_app, ?explained_app;
  repeat match goal with
  | H : ?x = ?x -> explained _ = true |- _ => rewrite (H eq_refl)
  end;
  cbn;
  first [ congruence | lia | reflexivity
        | intros _; rewrite ?orb_true_r; reflexivity ].

Lemma spec_startup regs wire fuel :
  50 <= fuel ->
  spec (startup regs wire fuel)
       (fun res evs =>
          res <> None /\
          ap_reads evs <= 1 + (2000 + default_retries regs + 2000) /\
          halt_attempts evs <= 50 /\
          (res = Some false -> explained evs = true)).
Proof.
  intros Hfuel. unfold startup, require, reading, polling. cbv zeta.
  generalize 2000 as budget. intros budget.
  run; known; repeat split; account.
Qed.

Lemma spec_flashMassErase regs wire :
  spec (flashMassErase regs wire)
       (fun res evs =>
          ap_reads evs <= 1 + 10000 /\
          (res = false -> explained evs = true)).
Proof.
  unfold flashMassErase, require, reading.
  generalize 10000 as budget. intros budget.
  run; known; repeat split; account.
Qed.

Lemma poll_timed_out_app a b :
  poll_timed_out (a ++ b) = poll_timed_out a || poll_timed_out b.
Proof. apply existsb_app. Qed.

Lemma hd_error_app_some {A} (a b : list A) (x : A) :
  hd_error a = Some x -> hd_error (a ++ b) = Some x.
Proof. destruct a; [discriminate | trivial]. Qed.

(** How a poll ends. One that returns a word logged no timeout; one
    that fails either met a failed read, or it made all the reads of
    its budget and the timeout is the last thing it did. *)
Lemma spec_apReadPoll_spent wire addr mask expected retries :
  spec (apReadPoll wire addr mask expected retries)
       (fun r evs =>
          halt_attempts evs = 0 /\ ap_reads evs <= retries /\
          match r with
          | Some _ => faulted evs = false /\ poll_timed_out evs = false
          | None =>
              (faulted evs = true /\ poll_timed_out evs = false) \/
              (faulted evs = false /\ poll_timed_out evs = true /\
               ap_reads evs = retries /\
               hd_error evs =
                 Some (Log LOG_ERROR poll_timeout_message [addr; mask; expected]))
          end).
Proof.
  induction retries as [|n IH]; cbn [apReadPoll].
  - eapply spec_bind; [apply spec_log|].
    intros _ evs ->. apply spec_ret. cbn.
    split; [reflexivity|]. split; [lia|]. right. repeat split.
  - eapply spec_bind; [apply spec_apRead|].
    intros rep evs ->. destruct rep as [|data].
    + apply spec_ret. cbn. split; [reflexivity|]. split; [lia|]. left. split; reflexivity.
    + destruct (Z.land data mask =? Z.land (to_uint32 expected) mask)%Z.
      * apply spec_ret. cbn. split; [reflexivity|]. split; [lia|]. split; reflexivity.
      * eapply spec_weaken; [apply IH|].
        intros r evs (Hl & Hr & Hres).
        rewrite halt_attempts_app, ap_reads_app, faulted_app,
                poll_timed_out_app, Hl.
        cbn. rewrite !orb_false_r.
        split; [reflexivity|]. split; [lia|].
        destruct r as [data'|]; [exact Hres|].
        destruct Hres as [Hres|(Hf & Ht & Hn & Hhd)]; [left; exact Hres|].
        right. repeat split; trivial; [lia|].
        now apply hd_error_app_some.
Qed.

(** How the halt loop ends, entered with [retries] between 1 and the
    fuel: one of its transactions failed, or it is left with [rest]
    attempts unused after [retries - rest] attempts none of which
    failed. It polls no register. *)
Lemma spec_haltLoop_spent regs wire fuel : forall retries,
  (1 <= retries <= Z.of_nat fuel)%Z -> (retries < 2 ^ 32)%Z ->
  spec (haltLoop regs wire fuel retries)
       (fun r evs =>
          poll_timed_out evs = false /\
          match r with
          | None => False
          | Some LoopReturnedFalse => faulted evs = true
          | Some (LoopLeft rest dhcsr) =>
              faulted evs = false /\ (0 <= rest)%Z /\
              Z.of_nat (halt_attempts evs) = (retries - rest)%Z
          end).
Proof.
  induction fuel as [|fuel' IH]; intros retries Hr Hlt; [lia|].
  cbn [haltLoop]. unfold require, reading.
  rewrite (to_uint32_small (retries - 1)) by lia.
  eapply spec_bind; [apply spec_memStore|]. intros ok evs1 ->.
  destruct ok; [|apply spec_ret; cbn; auto].
  eapply spec_bind; [apply spec_memLoad|]. intros rep evs2 ->.
  destruct rep as [|dhcsr]; [apply spec_ret; cbn; auto|].
  destruct (Z.eqb_spec (retries - 1) 0) as [Hz|Hnz];
    destruct (Z.land dhcsr (Z.shiftl 1 17) =? 0)%Z; cbn [andb negb];
    try (apply spec_ret; cbn; repeat split; lia).
  eapply spec_weaken; [apply (IH (retries - 1)%Z); lia|].
  intros r evs (Ht & Hres).
  rewrite !poll_timed_out_app, Ht. cbn. split; [reflexivity|].
  destruct r as [[rest dh|]|]; [|now rewrite !faulted_app, Hres|assumption].
  destruct Hres as (Hf & Hl & Ha).
  rewrite !faulted_app, !halt_attempts_app, Hf. cbn. repeat split; trivial. lia.
Qed.

Ltac prim_spent :=
  first [ apply spec_apRead | apply spec_apWrite | apply spec_memStore
        | apply spec_memLoad | apply spec_initMemPort
        | apply spec_memStoreAndVerify | apply spec_log
        | apply spec_apReadPoll_spent
        | apply spec_haltLoop_spent; lia ].

(** Runs a function to each of its return points, keeping what each
    test on the way decided. *)
Ltac run_spent :=
  repeat lazymatch goal with
  | |- spec (bind _ _) _ =>
      eapply spec_bind; [prim_spent | cbv beta; intros ? ? ?]
  | |- spec (ret _) _ => apply spec_ret
  | |- spec (if ?c then _ else _) _ => destruct c eqn:?
  | |- spec (match ?r with _ => _ end) _ => destruct r eqn:?
  end.

Ltac known_spent :=
  repeat match goal with
  | H : _ /\ _ |- _ => destruct H
  | H : _ \/ _ |- _ => destruct H
  | H : False |- _ => destruct H
  | H : ?evs = _ :: _ |- _ => subst evs
  | H : (_ =? _)%Z = true |- _ => apply Z.eqb_eq in H
  | H : (_ =? _)%Z = false |- _ => apply Z.eqb_neq in H
  end.

Ltac readings_spent :=
  rewrite ?faulted_app, ?poll_timed_out_app, ?halt_attempts_app, ?ap_reads_app;
  repeat match goal with
  | H : ?f ?e = _ |- _ => is_var e; rewrite H
  end;
  cbn.

(** Where [startup] stops. A poll whose budget is spent ends it: the
    result is false and the timeout is the last thing in the trace.
    So do 50 attempts to halt the core none of which failed: the
    result is false and the last thing in the trace is the report of
    the failure. *)
Lemma spec_startup_spent regs wire fuel :
  50 <= fuel ->
  spec (startup regs wire fuel)
       (fun res evs =>
          (poll_timed_out evs = true ->
           res = Some false /\
           exists args,
             hd_error evs = Some (Log LOG_ERROR poll_timeout_message args)) /\
          (halt_attempts evs = 50 -> faulted evs = false ->
           res = Some false /\
           exists dhcsr,
             hd_error evs = Some (Log LOG_ERROR halt_failure_message [dhcsr]))).
Proof.
  intros Hfuel. unfold startup, require, reading, polling. cbv zeta.
  generalize 2000 as budget. intros budget.
  run_spent; known_spent; subst.
  all: split; [intros Ht|intros Hh Hf].
  all: revert Ht || revert Hh Hf.
  all: readings_spent.
  all: try discriminate; try lia.
  all: intros; (split; [reflexivity|]); eexists.
  all: first [ reflexivity
             | rewrite <- ?app_assoc; apply hd_error_app_some; eassumption ].
Qed.

(** Where [flashMassErase] stops when the budget of its poll is
    spent: after the one read of the status and the 10000 reads of
    the poll, with the result false and its own report of the timeout
    the last thing in the trace. *)
Lemma spec_flashMassErase_spent regs wire :
  spec (flashMassErase regs wire)
       (fun res evs =>
          poll_timed_out evs = true ->
          res = false /\ ap_reads evs = 1 + 10000 /\
          hd_error evs = Some (Log LOG_ERROR erase_timeout_message [])).
Proof.
  unfold flashMassErase, require, reading.
  generalize 10000 as budget. intros budget.
  run_spent; known_spent; subst.
  all: intros Ht; revert Ht; readings_spent.
  all: try discriminate.
  all: intros _; repeat split; lia.
Qed.


(** C3. Every polling wait of the reset and debug sequence has a
    bounded budget. Whatever the hardware answers, [startup] returns
    (fuel for 50 iterations of the halt loop is enough) after at most
    2000, [default_retries] and 2000 reads of the status register in
    its three polls, next to the one read of the IDR, and at most 50
    attempts to halt the core; [flashMassErase] returns after at most
    10000 polls, next to its one read of the status. When either
    returns false and no transaction failed, an error was logged.

    A spent budget ends the function, again whatever the hardware
    answers. A poll fails without a failed read only by making all
    the reads of its budget, and then it logs the timeout. When any
    poll of [startup] times out, [startup] returns false and the
    logged timeout is the last thing it did; when its halt loop has
    made 50 attempts none of which failed, it returns false and the
    last thing it did was to log the failure to halt. When the poll
    of [flashMassErase] times out, the function has made its 1 + 10000
    reads, returns false, and the last thing it did was to log its own
    timeout error.

    The budgets are reached: a target stuck in reset costs [startup]
    its 2000 polls, and an erase that never completes costs
    [flashMassErase] its 10000, each ending in false and a logged
    error. *)
Theorem polling_is_bounded (regs : RegMap) (wire : Wire) (fuel : nat) :
  50 <= fuel ->
  let s := startup regs wire fuel init in
  let e := flashMassErase regs wire init in
  (fst s <> None /\
   ap_reads (trace (snd s)) <= 1 + (2000 + default_retries regs + 2000) /\
   halt_attempts (trace (snd s)) <= 50 /\
   (fst s = Some false -> faulted (trace (snd s)) = false ->
    error_logged (trace (snd s)) = true)) /\
  (ap_reads (trace (snd e)) <= 1 + 10000 /\
   (fst e = false -> faulted (trace (snd e)) = false ->
    error_logged (trace (snd e)) = true)) /\
  (forall addr mask expected budget,
     spec (apReadPoll wire addr mask expected budget)
          (fun r evs =>
             ap_reads evs <= budget /\
             (poll_timed_out evs = true <-> r = None /\ faulted evs = false) /\
             (poll_timed_out evs = true -> ap_reads evs = budget))) /\
  (poll_timed_out (trace (snd s)) = true ->
   fst s = Some false /\
   exists args,
     hd_error (trace (snd s)) = Some (Log LOG_ERROR poll_timeout_message args)) /\
  (halt_attempts (trace (snd s)) = 50 -> faulted (trace (snd s)) = false ->
   fst s = Some false /\
   exists dhcsr,
     hd_error (trace (snd s)) =
       Some (Log LOG_ERROR halt_failure_message [dhcsr])) /\
  (poll_timed_out (trace (snd e)) = true ->
   fst e = false /\ ap_reads (trace (snd e)) = 1 + 10000 /\
   hd_error (trace (snd e)) = Some (Log LOG_ERROR erase_timeout_message [])) /\
  (let s' := startup mk20dx128 stuck_in_reset fuel init in
   fst s' = Some false /\ ap_reads (trace (snd s')) = 1 + 2000 /\
   faulted (trace (snd s')) = false /\ error_logged (trace (snd s')) = true) /\
  (let e' := flashMassErase mk20dx128 stuck_erasing init in
   fst e' = false /\ ap_reads (trace (snd e')) = 1 + 10000 /\
   faulted (trace (snd e')) = false /\
   hd_error (trace (snd e')) =
     Some (Log LOG_ERROR "FLASH: Timed out waiting for mass erase to complete" [])).
Proof.
  intros Hfuel. cbv zeta.
  assert (forall evs, explained evs = true -> faulted evs = false ->
                      error_logged evs = true) as Hex.
  { unfold explained. intros evs H Hf. now rewrite Hf in H. }
  destruct (spec_startup regs wire fuel Hfuel init)
    as (evs & Ht & Hn & Hr & Hh & He).
  destruct (spec_startup_spent regs wire fuel Hfuel init)
    as (evs' & Ht' & Hpoll & Hhalt).
  destruct (spec_flashMassErase regs wire init) as (fvs & Ft & Fr & Fe).
  destruct (spec_flashMassErase_spent regs wire init) as (fvs' & Ft' & Fpoll).
  cbn [trace init] in Ht, Ht', Ft, Ft'. rewrite app_nil_r in Ht, Ht', Ft, Ft'.
  rewrite <- Ht' in Hpoll, Hhalt. rewrite <- Ht in Hr, Hh, He.
  rewrite <- Ft' in Fpoll. rewrite <- Ft in Fr, Fe.
  split; [|split; [|split; [|split; [|split; [|split; [|split]]]]]].
  - repeat split; auto.
  - repeat split; auto.
  - intros addr mask expected budget.
    eapply spec_weaken; [apply spec_apReadPoll_spent|]. cbv beta.
    intros r pvs (_ & Hle & Hres). split; [exact Hle|].
    destruct r as [data|].
    + destruct Hres as (_ & Hno). rewrite Hno.
      repeat split; try discriminate. intros (Hr' & _). discriminate Hr'.
    + destruct Hres as [(Hf & Hno)|(Hf & Hyes & Hn' & _)].
      * rewrite Hf, Hno. repeat split; try discriminate.
        intros (_ & Hf'). discriminate Hf'.
      * rewrite Hf, Hyes. repeat split; trivial.
  - exact Hpoll.
  - exact Hhalt.
  - exact Fpoll.
  - assert (startup mk20dx128 stuck_in_reset fuel init
            = startup mk20dx128 stuck_in_reset 0 init) as ->
      by (vm_compute; reflexivity).
    vm_compute. repeat split; reflexivity.
  - vm_compute. repeat split; reflexivity.
Qed.

(** Three targets that spend a budget: one whose erase never
    completes, one that never halts, one that stays in reset. *)
Lemma polling_is_bounded_witness :
  (fst (flashMassErase mk20dx128 stuck_erasing init) = false /\
   ap_reads (trace (snd (flashMassErase mk20dx128 stuck_erasing init)))
     = 1 + 10000) /\
  fst (startup mk20dx128 never_halting 50 init) = Some false /\
  fst (startup mk20dx128 stuck_in_reset 50 init) = Some false.
Proof.
  split; [|split].
  - pose proof (polling_is_bounded mk20dx128 stuck_erasing 50 ltac:(lia)) as H.
    cbv zeta in H.
    destruct H as (_ & _ & _ & _ & _ & (Hres & Hreads & _) & _);
      [vm_compute; reflexivity|].
    split; [exact Hres | exact Hreads].
  - pose proof (polling_is_bounded mk20dx128 never_halting 50 ltac:(lia)) as H.
    cbv zeta in H.
    destruct H as (_ & _ & _ & _ & (Hres & _) & _);
      [vm_compute; reflexivity | vm_compute; reflexivity |].
    exact Hres.
  - pose proof (polling_is_bounded mk20dx128 stuck_in_reset 50 ltac:(lia)) as H.
    cbv zeta in H.
    destruct H as (_ & _ & _ & (Hres & _) & _); [vm_compute; reflexivity|].
    exact Hres.
Defined.

(** What [flashMassErase] does once the three checks have passed: it
    writes the control register once, with the erase command. *)
Lemma spec_erase_command regs wire (k : option Z -> M bool) :
  (forall r, spec (k r) (fun _ evs => ap_writes evs = [])) ->
  spec (log LOG_NORMAL "FLASH: Beginning mass erase operation" [] ;;
        require false
          (apWrite wire (REG_MDM_CONTROL regs)
             (Z.lor (REG_MDM_CONTROL_CORE_HOLD_RESET regs)
                    (REG_MDM_CONTROL_MASS_ERASE regs)))
          (r <- apReadPoll wire (REG_MDM_STATUS regs)
                  (REG_MDM_STATUS_FLASH_ERASE_ACK regs) 0 10000 ;; k r))
       (fun _ evs =>
          exists ok, ap_writes evs =
            [ApWrite (REG_MDM_CONTROL regs)
                     (Z.lor (REG_MDM_CONTROL_CORE_HOLD_RESET regs)
                            (REG_MDM_CONTROL_MASS_ERASE regs)) ok]).
Proof.
  intros Hk. unfold require.
  eapply spec_bind; [apply spec_log|]. intros _ evs0 ->.
  eapply spec_bind; [apply spec_apWrite|]. intros ok evs1 ->.
  destruct ok; [|apply spec_ret; now exists false].
  eapply spec_bind; [apply spec_apReadPoll|].
  intros r evs2 (_ & _ & Hw & _).
  eapply spec_weaken; [apply Hk|]. cbv beta.
  intros _ evs3 Hw3. exists true.
  unfold ap_writes in *. rewrite !filter_app, Hw3, Hw. reflexivity.
Qed.

(** C6. The mass erase is guarded. Whatever word the status register
    returns to the first read, [flashMassErase] writes the access
    port only when that word has FLASH_READY set, FLASH_ERASE_ACK
    clear and MASS_ERASE_ENABLE set, and then it writes the control
    register once, with the erase command; when one of the three
    checks fails, or the read itself fails, it returns false and has
    written nothing. *)
Theorem flashMassErase_is_guarded (regs : RegMap) (wire : Wire) :
  let e := flashMassErase regs wire init in
  let passes status :=
    has_flag status (REG_MDM_STATUS_FLASH_READY regs) /\
    ~ has_flag status (REG_MDM_STATUS_FLASH_ERASE_ACK regs) /\
    has_flag status (REG_MDM_STATUS_MASS_ERASE_ENABLE regs) in
  (ap_writes (trace (snd e)) <> [] ->
   exists status ok,
     wire 0 = Ack status /\ passes status /\
     ap_writes (trace (snd e)) =
       [ApWrite (REG_MDM_CONTROL regs)
                (Z.lor (REG_MDM_CONTROL_CORE_HOLD_RESET regs)
                       (REG_MDM_CONTROL_MASS_ERASE regs)) ok]) /\
  (forall status, wire 0 = Ack status -> ~ passes status ->
                  fst e = false /\ ap_writes (trace (snd e)) = []) /\
  (wire 0 = Fault -> fst e = false /\ ap_writes (trace (snd e)) = []).
Proof.
  cbv zeta. unfold has_flag.
  destruct (flashMassErase regs wire init) as [res p] eqn:E. cbn [fst snd].
  unfold flashMassErase, reading in E. unfold bind at 1 in E.
  unfold apRead, transact in E. cbn [tick trace init] in E.
  destruct (wire 0) as [|status].
  { injection E as <- <-. cbn. repeat split; congruence. }
  destruct (Z.eqb_spec (Z.land status (REG_MDM_STATUS_FLASH_READY regs)) 0)
    as [Hr|Hr].
  { injection E as <- <-. cbn. repeat split; try congruence; tauto. }
  destruct (Z.eqb_spec (Z.land status (REG_MDM_STATUS_FLASH_ERASE_ACK regs)) 0)
    as [Ha|Ha]; cbn [negb] in E.
  2:{ injection E as <- <-. cbn. repeat split; try congruence; tauto. }
  destruct (Z.eqb_spec (Z.land status (REG_MDM_STATUS_MASS_ERASE_ENABLE regs)) 0)
    as [Hm|Hm].
  { injection E as <- <-. cbn. repeat split; try congruence; tauto. }
  assert (exists ok, ap_writes (trace p) =
            [ApWrite (REG_MDM_CONTROL regs)
               (Z.lor (REG_MDM_CONTROL_CORE_HOLD_RESET regs)
                      (REG_MDM_CONTROL_MASS_ERASE regs)) ok]) as (ok & Hw).
  { match type of E with
    | ?c ?p1 = _ =>
        destruct (spec_erase_command regs wire
                    (fun r =>
                       match r with
                       | None =>
                           log LOG_ERROR
                             "FLASH: Timed out waiting for mass erase to complete" [] ;;
                           ret false
                       | Some status =>
                           if (Z.land status (REG_MDM_STATUS_FLASH_READY regs) =? 0)%Z
                           then
                             log LOG_ERROR
                               "FLASH: Flash controller not ready after mass erase" [] ;;
                             ret false
                           else ret true
                       end)
                    ltac:(intros r; cbv beta; run; known; reflexivity) p1)
          as (evs & Ht & ok & Hw)
    end.
    unfold require in E, Ht. rewrite E in Ht. cbn [snd trace] in Ht.
    exists ok. rewrite Ht. unfold ap_writes in *.
    rewrite filter_app, Hw. reflexivity. }
  rewrite Hw. split; [|split].
  - intros _. exists status, ok. tauto.
  - intros st [= <-] H. tauto.
  - discriminate.
Qed.

(** The checks can pass: a target that is ready, enabled and not
    erasing gets the erase command, and the erase completes. *)
Example mass_erase_command_is_issued :
  let e := flashMassErase mk20dx128 (fun _ => Ack 0x22) init in
  fst e = true /\
  ap_writes (trace (snd e)) = [ApWrite 0x01000004 0x11 true].
Proof. vm_compute. split; reflexivity. Qed.

(** C4, what the code does on the last attempt. The target raises
    S_HALT on the 50th attempt: the loop is left with the bit seen
    set and [retries] at zero, and [startup] logs that it failed to
    halt the CPU and returns false. Had the bit come on any of the
    attempts 1 to 49, [startup] would have gone on and returned
    true. *)
Theorem startup_fails_when_halted_on_last_attempt :
  let s := startup mk20dx128 (halting_on 50) 50 init in
  fst s = Some false /\
  hd_error (trace (snd s)) =
    Some (Log LOG_ERROR
            "ARMKinetisDebug: Failed to put CPU in debug halt state. (DHCSR: %08x)"
            [0x00030003%Z]) /\
  Z.testbit 0x00030003 17 = true /\
  halt_attempts (trace (snd s)) = 50 /\
  faulted (trace (snd s)) = false /\
  forallb (fun k =>
             match fst (startup mk20dx128 (halting_on k) 50 init) with
             | Some true => true
             | _ => false
             end) (seq 1 49) = true.
Proof. vm_compute. repeat split; reflexivity. Qed.

End DebugFacts.

(** ** Facts about the FC driver *)

Module FCDriverFacts.
Import FCDriver.

Local Open Scope nat_scope.

Lemma invariant_attach : invariant attach.
Proof. unfold invariant, attach; cbn. intuition (try discriminate; auto). Qed.

Lemma hd_error_app {A} (l : list A) (x y : A) :
  hd_error l = Some x -> hd_error (l ++ [y]) = Some x.
Proof. destruct l; [discriminate | trivial]. Qed.

(** An idle, configured device that looks for work stays within the
    invariant. *)
Lemma invariant_submit_pending d :
  invariant d -> state d = Ready -> invariant (submit_pending d).
Proof.
  unfold invariant, submit_pending.
  intros (Hc & Ht & Hf & Hs) Hst. rewrite Hst in Hs.
  destruct Hs as (Hconf & Hlen). destruct (Ht Hconf) as (Hhd & H1).
  destruct (lut_latched d); [|destruct (back_dirty d)]; cbn;
    rewrite ?length_app, ?Hconf; cbn;
    repeat split; intros; try discriminate; try lia; auto using hd_error_app.
Qed.

Lemma invariant_mark t d :
  invariant d -> invariant (mark t d).
Proof. destruct t; trivial. Qed.

Lemma state_mark t d : state (mark t d) = state d.
Proof. destruct t; reflexivity. Qed.

(** The first write to a fresh device submits the upload and nothing
    else. *)
Lemma invariant_first_write d dirty :
  invariant d -> state d = AttachedUnconfigured ->
  invariant (mkDevice UploadingLUT (configured d) dirty false
                      (submitted d ++ [LutUpload]) (completions d)).
Proof.
  unfold invariant. intros (Hc & Ht & Hf & Hs) Hst. rewrite Hst in Hs.
  destruct Hs as (Hconf & Hsub). destruct (Hf Hconf) as (H0 & _).
  cbn. rewrite Hconf, Hsub, H0. cbn.
  repeat split; intros; try discriminate; auto.
Qed.

(** A completion makes the device idle: configured by then, with every
    submission completed. *)
Lemma invariant_completion d :
  invariant d -> state d = UploadingLUT \/ state d = FrameInFlight ->
  invariant (mkDevice Ready true (back_dirty d) (lut_latched d)
                      (submitted d) (S (completions d))).
Proof.
  unfold invariant. intros (Hc & Ht & Hf & Hs) [Hst|Hst]; rewrite Hst in Hs;
    destruct Hs as (Hconf & Hsub); cbn.
  - destruct (Hf Hconf) as (H0 & _). rewrite Hsub, H0. cbn.
    repeat split; intros; try discriminate; auto.
  - destruct (Ht Hconf) as (Hhd & H1). rewrite Hsub.
    repeat split; intros; try discriminate; auto; lia.
Qed.

Lemma invariant_terminated d :
  invariant d ->
  invariant (mkDevice Terminated (configured d) (back_dirty d) (lut_latched d)
                      (submitted d) (completions d)).
Proof. unfold invariant. cbn. tauto. Qed.

Lemma invariant_step d t : invariant d -> invariant (step d t).
Proof.
  intros Hinv. unfold step.
  destruct (state d) eqn:Hst; destruct t;
    try exact Hinv;
    try (apply invariant_terminated; exact Hinv);
    try (apply invariant_mark; exact Hinv).
  - (* AttachedUnconfigured, WritePixels *)
    now apply invariant_first_write.
  - (* AttachedUnconfigured, SetGlobalColorCorrection *)
    now apply invariant_first_write.
  - (* UploadingLUT, Completion *)
    apply invariant_submit_pending; [|reflexivity].
    apply invariant_completion; auto.
  - (* Ready, WritePixels *)
    apply invariant_submit_pending;
      [apply invariant_mark; exact Hinv | now rewrite state_mark].
  - (* Ready, SetGlobalColorCorrection *)
    apply invariant_submit_pending;
      [apply invariant_mark; exact Hinv | now rewrite state_mark].
  - (* FrameInFlight, Completion *)
    apply invariant_submit_pending; [|reflexivity].
    assert (configured d = true) as Hconf.
    { unfold invariant in Hinv. rewrite Hst in Hinv. tauto. }
    rewrite Hconf. apply invariant_completion; auto.
Qed.

Lemma invariant_fold ts : forall d, invariant d -> invariant (fold_left step ts d).
Proof.
  induction ts as [|t ts IH]; intros d Hd; cbn; [exact Hd|].
  apply IH. now apply invariant_step.
Qed.

Lemma invariant_run ts : invariant (run ts).
Proof. apply invariant_fold, invariant_attach. Qed.

Lemma frame_needs_configured d i :
  invariant d -> nth_error (submitted d) i = Some PixelFrame ->
  configured d = true.
Proof.
  intros (_ & _ & Hf & _) Hi.
  destruct (configured d); [reflexivity|].
  destruct (Hf eq_refl) as (_ & [Hs|Hs]); rewrite Hs in Hi.
  - destruct i; discriminate.
  - destruct i as [|[|i]]; discriminate.
Qed.

Lemma configured_has_lut d :
  invariant d -> configured d = true ->
  hd_error (submitted d) = Some LutUpload /\
  hd_error (received d) = Some LutUpload.
Proof.
  intros (_ & Ht & _) Hc. destruct (Ht Hc) as (Hhd & H1).
  split; [exact Hhd|]. unfold received.
  destruct (completions d) as [|n]; [lia|].
  destruct (submitted d); [discriminate | exact Hhd].
Qed.

(** C8. After an attach no pixel frame can be observed at the FC
    device before the colour-correction LUT has been uploaded.
    Whatever happens to the device from its attach on: a pixel frame
    among the transfers submitted comes after the LUT upload, which
    was submitted first and had completed; a pixel frame among the
    transfers received comes after the LUT upload; and a device
    whose configured flag is set has received the LUT. *)
Theorem lut_upload_precedes_pixel_frames (ts : list Trigger) :
  let d := run ts in
  (forall i, nth_error (submitted d) i = Some PixelFrame ->
             0 < i /\ hd_error (submitted d) = Some LutUpload /\
             hd_error (received d) = Some LutUpload) /\
  (forall i, nth_error (received d) i = Some PixelFrame ->
             0 < i /\ hd_error (received d) = Some LutUpload) /\
  (configured d = true -> hd_error (received d) = Some LutUpload).
Proof.
  cbv zeta. pose proof (invariant_run ts) as Hinv.
  assert (forall i, nth_error (submitted (run ts)) i = Some PixelFrame ->
                    0 < i /\ hd_error (submitted (run ts)) = Some LutUpload /\
                    hd_error (received (run ts)) = Some LutUpload) as Hsub.
  { intros i Hi.
    pose proof (frame_needs_configured _ _ Hinv Hi) as Hc.
    destruct (configured_has_lut _ Hinv Hc) as (Hhd & Hrc).
    repeat split; trivial.
    destruct i; [|lia].
    rewrite nth_error_0, Hhd in Hi. discriminate. }
  split; [exact Hsub|]. split.
  - intros i Hi. unfold received in Hi. rewrite nth_error_firstn in Hi.
    destruct (i <? completions (run ts)); [|discriminate].
    destruct (Hsub i Hi) as (Hpos & _ & Hrc). now split.
  - intros Hc. now apply configured_has_lut.
Qed.

(** The first frame written to a fresh device waits for the upload:
    the frame goes out only when the upload has completed. *)
Example first_frame_waits_for_lut :
  submitted (run [WritePixels]) = [LutUpload] /\
  submitted (run [WritePixels; Completion]) = [LutUpload; PixelFrame] /\
  received (run [WritePixels; Completion]) = [LutUpload] /\
  state (run [WritePixels; Completion; Completion]) = Ready.
Proof. repeat split. Qed.

End FCDriverFacts.

(** ** Facts about the OPC layer *)

Module OPCFacts.
Import Init.Byte OPC.

Local Open Scope nat_scope.

Lemma to_nat_byte_of_nat n :
  Strings.Byte.to_nat (byte_of_nat n) = n mod 256.
Proof.
  unfold byte_of_nat.
  pose proof (Strings.Byte.to_of_nat_option_map (n mod 256)) as H.
  assert ((n mod 256 <=? 255) = true) as Hle.
  { apply Nat.leb_le. pose proof (Nat.mod_upper_bound n 256). lia. }
  rewrite Hle in H.
  destruct (Strings.Byte.of_nat (n mod 256)) as [b|]; cbn in H.
  - now injection H.
  - discriminate.
Qed.

(** The length field holds every length the protocol allows. *)
Lemma u16be_length n :
  (Z.of_nat n <= 65535)%Z ->
  u16be (byte_of_nat (n / 256)) (byte_of_nat n) = n.
Proof.
  intros Hn. unfold u16be. rewrite !to_nat_byte_of_nat.
  assert (n / 256 < 256) as Hhi
    by (apply Nat.Div0.div_lt_upper_bound; lia).
  rewrite (Nat.mod_small (n / 256)) by exact Hhi.
  pose proof (Nat.div_mod_eq n 256). lia.
Qed.

Lemma frame_nil fuel : frame fuel [] = ([], []).
Proof. destruct fuel; reflexivity. Qed.

(** A whole message in the accumulator is taken off as that message. *)
Lemma frame_encode fuel m :
  (Z.of_nat (List.length (payload m)) <= 65535)%Z ->
  frame (S fuel) (encode m) = ([m], []).
Proof.
  intros Hlen. unfold encode. cbn [frame].
  rewrite u16be_length by assumption.
  rewrite Nat.leb_refl, skipn_all, firstn_all, frame_nil.
  now destruct m.
Qed.

(** A message that has not arrived in full stays in the accumulator. *)
Lemma frame_partial fuel m k :
  (Z.of_nat (List.length (payload m)) <= 65535)%Z ->
  k < List.length (encode m) ->
  frame fuel (firstn k (encode m)) = ([], firstn k (encode m)).
Proof.
  intros Hlen Hk. destruct fuel; [reflexivity|].
  unfold encode in *. cbn [List.length] in Hk.
  destruct k as [|[|[|[|k]]]]; try reflexivity.
  cbn [firstn frame].
  rewrite u16be_length by assumption.
  rewrite length_firstn.
  replace (List.length (payload m) <=? Nat.min k (List.length (payload m)))
    with false; [reflexivity|].
  symmetry. apply Nat.leb_gt. lia.
Qed.

(** The length of the accumulator is fuel enough: the framer stops
    because the rest is incomplete, not because the fuel ran out. *)
Lemma frame_fuel_enough fuel : forall acc,
  List.length acc <= fuel -> incomplete (snd (frame fuel acc)).
Proof.
  induction fuel as [|fuel IH]; intros acc Hlen.
  - destruct acc; [exact I | cbn in Hlen; lia].
  - cbn [frame].
    destruct acc as [|ch [|cmd [|hi [|lo rest]]]]; try exact I.
    destruct (Nat.leb_spec (u16be hi lo) (List.length rest)) as [Hle|Hgt].
    + specialize (IH (skipn (u16be hi lo) rest)).
      destruct (frame fuel (skipn (u16be hi lo) rest)) as [ms left].
      apply IH. rewrite length_skipn. cbn [List.length] in Hlen. lia.
    + exact Hgt.
Qed.

Lemma encode_length m : List.length (encode m) = 4 + List.length (payload m).
Proof. reflexivity. Qed.

Lemma dispatch_unrecognized srv m : unrecognized m -> dispatch srv m = [].
Proof.
  unfold unrecognized, recognized_command, dispatch.
  intros [Hc | (Hc & id & Hid & Hne)].
  - apply orb_false_elim in Hc as (H0 & Hff). now rewrite H0, Hff.
  - rewrite Hc. cbn.
    unfold system_id in Hid. unfold system_exclusive.
    destruct (payload m) as [|hi [|lo rest]]; try discriminate.
    injection Hid as <-.
    apply Nat.eqb_neq in Hne. now rewrite Hne.
Qed.

Lemma on_read_whole srv m :
  (Z.of_nat (List.length (payload m)) <= 65535)%Z ->
  on_read srv accepted (encode m) = Open accepted (dispatch srv m).
Proof.
  intros Hlen. unfold on_read, accepted. cbn [accumulator app].
  replace (cap <? Z.of_nat (List.length (encode m)))%Z with false.
  - rewrite encode_length. cbn [Nat.add].
    rewrite frame_encode by assumption.
    cbn. now rewrite app_nil_r.
  - symmetry. apply Z.ltb_ge. rewrite encode_length. unfold cap. lia.
Qed.

(** C9. Messages the layer does not recognize are tolerated silently.
    Take any message of a length the protocol allows whose command
    is not a recognized one, or a System Exclusive message whose
    system ID is not a recognized one. Its dispatch asks nothing of
    any device. Arriving on an accepted connection, in one read or
    split at any point into two, it produces no device traffic, is
    no error, and leaves the connection open with nothing
    buffered. *)
Theorem unrecognized_messages_are_ignored
  (srv : Server) (m : OPCMessage) (k : nat) :
  (Z.of_nat (List.length (payload m)) <= 65535)%Z ->
  unrecognized m ->
  dispatch srv m = [] /\
  on_read srv accepted (encode m) = Open accepted [] /\
  exists conn,
    on_read srv accepted (firstn k (encode m)) = Open conn [] /\
    on_read srv conn (skipn k (encode m)) = Open accepted [].
Proof.
  intros Hlen Hun.
  pose proof (dispatch_unrecognized srv m Hun) as Hd.
  pose proof (on_read_whole srv m Hlen) as Hw. rewrite Hd in Hw.
  split; [exact Hd|]. split; [exact Hw|].
  destruct (Nat.lt_ge_cases k (List.length (encode m))) as [Hk|Hk].
  - exists (mkConnection (firstn k (encode m))). split.
    + unfold on_read, accepted. cbn [accumulator app].
      replace (cap <? Z.of_nat (List.length (firstn k (encode m))))%Z with false.
      * now rewrite frame_partial.
      * symmetry. apply Z.ltb_ge. rewrite length_firstn, encode_length.
        unfold cap. lia.
    + unfold on_read in *. cbn [accumulator app] in *.
      rewrite firstn_skipn. exact Hw.
  - exists accepted. rewrite firstn_all2, skipn_all2 by assumption.
    split; [exact Hw|]. reflexivity.
Qed.

Lemma unrecognized_messages_are_ignored_witness :
  on_read (mkServer [mkEntry x00 0 64 0 0 None true] (fun _ => 64)) accepted
          [x00; x42; x00; x04; x01; x02; x03; x04]
    = Open accepted [].
Proof.
  apply (unrecognized_messages_are_ignored
           (mkServer [mkEntry x00 0 64 0 0 None true] (fun _ => 64))
           (mkMessage x00 x42 [x01; x02; x03; x04]) 3).
  - cbn. lia.
  - left. reflexivity.
Defined.

(** The recognized commands do reach the devices: the spec's
    single-pixel message and a colour-correction message. *)
Example recognized_messages_are_dispatched :
  on_read (mkServer [mkEntry x01 0 1 0 0 None false] (fun _ => 64)) accepted
          [x01; x00; x00; x03; xff; x80; x00]
    = Open accepted [WritePixels 0 0 (xff, x80, x00) None] /\
  on_read (mkServer [] (fun _ => 64)) accepted
          [x00; xff; x00; x04; x00; x01; x01; x7b]
    = Open accepted [SetGlobalColorCorrection [x7b]].
Proof. split; reflexivity. Qed.

End OPCFacts.

(** ** More facts about [hcolor.h] *)

Module ColorExtras.
Import CInt CIntFacts Color ColorFacts Display.

Lemma sat_add_exact x y :
  is_uint16 x -> is_uint16 y -> sat_add x y = Z.min 0xffff (x + y).
Proof.
  unfold is_uint16, sat_add. intros Hx Hy.
  rewrite (to_uint32_small (x + y)) by lia.
  rewrite (to_int32_small (x + y)) by lia.
  apply to_uint16_small. lia.
Qed.

Lemma add_ok a c : color_ok a -> color_ok c -> color_ok (add a c).
Proof.
  intros (Hr & Hg & Hb) (Hr' & Hg' & Hb').
  unfold color_ok, add; cbn [r g b].
  rewrite !sat_add_exact by assumption.
  unfold is_uint16 in *. lia.
Qed.

(** [operator +] adds component-wise and saturates at 0xffff instead
    of wrapping; on 16-bit colours it is commutative and associative,
    and black is neutral. *)
Theorem add_saturates (a c d : HColor) :
  color_ok a -> color_ok c -> color_ok d ->
  add a c = mkHColor (Z.min 0xffff (r a + r c)) (Z.min 0xffff (g a + g c))
                     (Z.min 0xffff (b a + b c)) /\
  color_ok (add a c) /\
  add a c = add c a /\
  add (add a c) d = add a (add c d) /\
  add a (mkHColor 0 0 0) = a.
Proof.
  intros Ha Hc Hd.
  pose proof (add_ok a c Ha Hc) as Hac. pose proof (add_ok c d Hc Hd) as Hcd.
  destruct Ha as (Har & Hag & Hab), Hc as (Hcr & Hcg & Hcb),
           Hd as (Hdr & Hdg & Hdb).
  assert (forall x y, is_uint16 x -> is_uint16 y -> is_uint16 (sat_add x y)) as Hs.
  { intros x y Hx Hy. rewrite sat_add_exact by assumption.
    unfold is_uint16 in *. lia. }
  split; [|split; [exact Hac|split; [|split]]].
  - unfold add. now rewrite !sat_add_exact.
  - unfold add. rewrite !sat_add_exact by assumption.
    f_equal; f_equal; lia.
  - unfold add; cbn [r g b].
    rewrite !sat_add_exact; auto.
    unfold is_uint16 in *. f_equal; lia.
  - unfold add; cbn [r g b].
    rewrite !sat_add_exact by (assumption || (unfold is_uint16; lia)).
    unfold is_uint16 in *. destruct a as [ra ga ba]; cbn [r g b] in *.
    f_equal; lia.
Qed.

Lemma add_saturates_witness :
  add (mkHColor 0xFFFF 0x8000 1) (mkHColor 1 0x8000 2)
    = mkHColor 0xFFFF 0xFFFF 3.
Proof.
  apply (add_saturates (mkHColor 0xFFFF 0x8000 1) (mkHColor 1 0x8000 2)
                       (mkHColor 0 0 0));
    unfold color_ok, is_uint16; simpl; lia.
Defined.

(** A byte cut out of a word by mask and shift. *)
Lemma byte_field w k :
  0 <= k ->
  Z.shiftr (Z.land w (Z.shiftl 0xFF k)) k = (w / 2 ^ k) mod 2 ^ 8.
Proof.
  intros Hk. rewrite Z.shiftr_land.
  rewrite Z.shiftr_shiftl_l, Z.sub_diag, Z.shiftl_0_r by lia.
  change 0xFF with (Z.ones 8).
  rewrite Z.land_ones by lia.
  now rewrite Z.shiftr_div_pow2.
Qed.

Lemma to_uint8_mod x : to_uint8 (x mod 2 ^ 8) = x mod 2 ^ 8.
Proof. unfold to_uint8. apply Z.mod_mod. lia. Qed.

(** The bytes of a packed word. *)
Lemma pack24_bytes r8 g8 b8 :
  is_uint8 r8 -> is_uint8 g8 -> is_uint8 b8 ->
  (pack24 r8 g8 b8 / 2 ^ 16) mod 2 ^ 8 = r8 /\
  (pack24 r8 g8 b8 / 2 ^ 8) mod 2 ^ 8 = g8 /\
  pack24 r8 g8 b8 mod 2 ^ 8 = b8.
Proof.
  unfold is_uint8, pack24.
  change (2 ^ 16) with 65536. change (2 ^ 8) with 256.
  intros Hr Hg Hb. repeat split.
  - replace (r8 * 65536 + g8 * 256 + b8) with (r8 * 65536 + (g8 * 256 + b8))
      by lia.
    rewrite Z.div_add_l by lia.
    rewrite (Z.div_small (g8 * 256 + b8)) by lia.
    rewrite Z.add_0_r. apply Z.mod_small; lia.
  - replace (r8 * 65536 + g8 * 256 + b8) with ((r8 * 256 + g8) * 256 + b8)
      by lia.
    rewrite Z.div_add_l by lia. rewrite (Z.div_small b8) by lia.
    rewrite Z.add_0_r, Z.add_comm, Z.mod_add by lia.
    apply Z.mod_small; lia.
  - replace (r8 * 65536 + g8 * 256 + b8) with (b8 + (r8 * 256 + g8) * 256)
      by lia.
    rewrite Z.mod_add by lia. apply Z.mod_small; lia.
Qed.

(** The three low bytes of a word are those of its low 24 bits. *)
Lemma bytes_mod24 w :
  (w / 2 ^ 16) mod 2 ^ 8 = ((w mod 2 ^ 24) / 2 ^ 16) mod 2 ^ 8 /\
  (w / 2 ^ 8) mod 2 ^ 8 = ((w mod 2 ^ 24) / 2 ^ 8) mod 2 ^ 8 /\
  w mod 2 ^ 8 = (w mod 2 ^ 24) mod 2 ^ 8.
Proof.
  change (2 ^ 16) with 65536. change (2 ^ 8) with 256.
  change (2 ^ 24) with 16777216.
  pose proof (Z.div_mod w 16777216 ltac:(lia)) as H.
  set (q := w / 16777216) in *. set (m := w mod 16777216) in *.
  repeat split.
  - replace w with (q * 256 * 65536 + m) by lia.
    rewrite Z.div_add_l by lia.
    now rewrite Z.add_comm, Z.mod_add by lia.
  - replace w with (q * 65536 * 256 + m) by lia.
    rewrite Z.div_add_l by lia.
    replace (q * 65536 + m / 256) with (m / 256 + (q * 256) * 256) by lia.
    now rewrite Z.mod_add by lia.
  - replace w with (m + (q * 65536) * 256) by lia.
    now rewrite Z.mod_add by lia.
Qed.

(** [HColor8 (uint32_t rgb)] takes the three low bytes of the word,
    red the highest, and ignores the bits above them; it undoes the
    packing of three bytes into a 24-bit word. *)
Theorem HColor8_packed_unpacks (rgb rv gv bv : Z) :
  is_uint8 rv -> is_uint8 gv -> is_uint8 bv ->
  HColor8_packed rgb =
    HColor8 ((rgb / 2 ^ 16) mod 2 ^ 8) ((rgb / 2 ^ 8) mod 2 ^ 8) (rgb mod 2 ^ 8) /\
  HColor8_packed rgb = HColor8_packed (rgb mod 2 ^ 24) /\
  HColor8_packed (pack24 rv gv bv) = HColor8 rv gv bv.
Proof.
  intros Hr Hg Hb.
  assert (forall w, HColor8_packed w =
            HColor8 ((w / 2 ^ 16) mod 2 ^ 8) ((w / 2 ^ 8) mod 2 ^ 8)
                    (w mod 2 ^ 8)) as Hdec.
  { intros w. unfold HColor8_packed.
    change 0xFF0000 with (Z.shiftl 0xFF 16).
    change 0x00FF00 with (Z.shiftl 0xFF 8).
    rewrite !byte_field by lia.
    change 0x0000FF with (Z.ones 8). rewrite Z.land_ones by lia.
    now rewrite !to_uint8_mod. }
  split; [apply Hdec|]. split.
  - rewrite (Hdec rgb), (Hdec (rgb mod 2 ^ 24)).
    destruct (bytes_mod24 rgb) as (-> & -> & ->). reflexivity.
  - rewrite Hdec.
    destruct (pack24_bytes rv gv bv Hr Hg Hb) as (-> & -> & ->). reflexivity.
Qed.

Lemma HColor8_packed_unpacks_witness :
  HColor8_packed (pack24 0xFF 0x80 0x00) = HColor8 0xFF 0x80 0x00.
Proof.
  apply (HColor8_packed_unpacks 0x12FF8000 0xFF 0x80 0x00);
    unfold is_uint8; lia.
Defined.

(** One component of [lerp8] for an alpha between the endpoints: no
    product overflows and the result is the weighted mean, rounded
    down. *)
Lemma lerp8_comp_exact x y alpha :
  is_uint16 x -> is_uint16 y -> 0 <= alpha <= 0x100 ->
  lerp8_comp x y alpha = (x * (256 - alpha) + y * alpha) / 256.
Proof.
  unfold is_uint16, lerp8_comp. intros Hx Hy Ha.
  change 0x100 with 256 in *.
  rewrite (to_int32_small (256 - alpha)) by lia.
  assert (0 <= x * (256 - alpha) <= 65535 * 256) by nia.
  assert (0 <= y * alpha <= 65535 * 256) by nia.
  assert (0 <= x * (256 - alpha) + y * alpha <= 65535 * 256) by nia.
  rewrite (to_int32_small (x * (256 - alpha))) by lia.
  rewrite (to_int32_small (y * alpha)) by lia.
  rewrite (to_int32_small (x * (256 - alpha) + y * alpha)) by lia.
  rewrite shiftr8_div.
  apply to_uint16_small.
  split; [apply Z.div_pos; lia|].
  apply Z.div_lt_upper_bound; lia.
Qed.

Lemma lerp8_comp_between x y alpha :
  is_uint16 x -> is_uint16 y -> 0 <= alpha <= 0x100 ->
  Z.min x y <= lerp8_comp x y alpha <= Z.max x y.
Proof.
  intros Hx Hy Ha. rewrite lerp8_comp_exact by assumption.
  unfold is_uint16 in *. change 0x100 with 256 in *.
  assert (256 * Z.min x y <= x * (256 - alpha) + y * alpha
          <= Z.max x y * 256) as (Hlo & Hhi) by nia.
  split.
  - apply Z.div_le_lower_bound; lia.
  - apply Z.div_le_upper_bound; lia.
Qed.

Lemma lerp8_comp_monotone x y alpha beta :
  is_uint16 x -> is_uint16 y -> 0 <= alpha <= beta -> beta <= 0x100 ->
  x <= y -> lerp8_comp x y alpha <= lerp8_comp x y beta.
Proof.
  intros Hx Hy Ha Hb Hxy.
  rewrite !lerp8_comp_exact by (assumption || lia).
  apply Z.div_le_mono; [lia|]. unfold is_uint16 in *. nia.
Qed.

Lemma lerp8_comp_antitone x y alpha beta :
  is_uint16 x -> is_uint16 y -> 0 <= alpha <= beta -> beta <= 0x100 ->
  y <= x -> lerp8_comp x y beta <= lerp8_comp x y alpha.
Proof.
  intros Hx Hy Ha Hb Hxy.
  rewrite !lerp8_comp_exact by (assumption || lia).
  apply Z.div_le_mono; [lia|]. unfold is_uint16 in *. nia.
Qed.

(** A larger alpha never takes a component further from the second
    endpoint, whichever of the two endpoints is the larger. *)
Lemma lerp8_comp_approaches x y alpha beta :
  is_uint16 x -> is_uint16 y -> 0 <= alpha <= beta -> beta <= 0x100 ->
  Z.abs (y - lerp8_comp x y beta) <= Z.abs (y - lerp8_comp x y alpha).
Proof.
  intros Hx Hy Ha Hb.
  pose proof (lerp8_comp_between x y alpha Hx Hy ltac:(lia)) as Ba.
  pose proof (lerp8_comp_between x y beta Hx Hy ltac:(lia)) as Bb.
  destruct (Z.le_ge_cases x y) as [Hxy|Hxy].
  - pose proof (lerp8_comp_monotone x y alpha beta Hx Hy Ha Hb Hxy). lia.
  - pose proof (lerp8_comp_antitone x y alpha beta Hx Hy Ha Hb Hxy). lia.
Qed.

(** For an alpha from 0 to 0x100 [lerp8] stays between its two
    colours in every component, and it moves towards the second one
    as alpha grows: a component that rises from the first colour to
    the second never falls, one that falls never rises, and in both
    cases its distance to the second colour never grows. *)
Theorem lerp8_stays_between (c1 c2 : HColor) (alpha beta : Z) :
  color_ok c1 -> color_ok c2 -> 0 <= alpha <= beta -> beta <= 0x100 ->
  let c := lerp8 c1 c2 alpha in
  let c' := lerp8 c1 c2 beta in
  color_ok c /\
  Z.min (r c1) (r c2) <= r c <= Z.max (r c1) (r c2) /\
  Z.min (g c1) (g c2) <= g c <= Z.max (g c1) (g c2) /\
  Z.min (b c1) (b c2) <= b c <= Z.max (b c1) (b c2) /\
  (r c1 <= r c2 -> r c <= r c') /\
  (g c1 <= g c2 -> g c <= g c') /\
  (b c1 <= b c2 -> b c <= b c') /\
  (r c2 <= r c1 -> r c' <= r c) /\
  (g c2 <= g c1 -> g c' <= g c) /\
  (b c2 <= b c1 -> b c' <= b c) /\
  Z.abs (r c2 - r c') <= Z.abs (r c2 - r c) /\
  Z.abs (g c2 - g c') <= Z.abs (g c2 - g c) /\
  Z.abs (b c2 - b c') <= Z.abs (b c2 - b c).
Proof.
  intros (Hr1 & Hg1 & Hb1) (Hr2 & Hg2 & Hb2) Ha Hb. cbv zeta.
  unfold lerp8; cbn [r g b].
  pose proof (lerp8_comp_between (r c1) (r c2) alpha Hr1 Hr2 ltac:(lia)) as Br.
  pose proof (lerp8_comp_between (g c1) (g c2) alpha Hg1 Hg2 ltac:(lia)) as Bg.
  pose proof (lerp8_comp_between (b c1) (b c2) alpha Hb1 Hb2 ltac:(lia)) as Bb.
  split; [|split; [exact Br|split; [exact Bg|split; [exact Bb|]]]].
  - unfold color_ok, is_uint16 in *; cbn [r g b]. lia.
  - repeat split; intros;
      first [ apply lerp8_comp_monotone; assumption || lia
            | apply lerp8_comp_antitone; assumption || lia
            | apply lerp8_comp_approaches; assumption || lia ].
Qed.

(** The red component rises, the green one stands, the blue one falls. *)
Lemma lerp8_stays_between_witness :
  r (lerp8 (mkHColor 0 0x8080 0xFFFF) (mkHColor 0xFFFF 0x8080 0) 0x40)
    <= r (lerp8 (mkHColor 0 0x8080 0xFFFF) (mkHColor 0xFFFF 0x8080 0) 0xC0) /\
  b (lerp8 (mkHColor 0 0x8080 0xFFFF) (mkHColor 0xFFFF 0x8080 0) 0xC0)
    <= b (lerp8 (mkHColor 0 0x8080 0xFFFF) (mkHColor 0xFFFF 0x8080 0) 0x40) /\
  Z.abs (0 - b (lerp8 (mkHColor 0 0x8080 0xFFFF) (mkHColor 0xFFFF 0x8080 0) 0xC0))
    <= Z.abs (0 - b (lerp8 (mkHColor 0 0x8080 0xFFFF) (mkHColor 0xFFFF 0x8080 0) 0x40)).
Proof.
  pose proof (lerp8_stays_between (mkHColor 0 0x8080 0xFFFF)
                (mkHColor 0xFFFF 0x8080 0) 0x40 0xC0) as H.
  cbv zeta in H.
  destruct H as (_ & _ & _ & _ & Hr & _ & _ & _ & _ & Hb & _ & _ & Hd);
    try (unfold color_ok, is_uint16; simpl; lia).
  split; [apply Hr; simpl; lia|]. split; [apply Hb; simpl; lia|exact Hd].
Defined.

(** The error of one frame fits the [int16_t] residual whatever
    residual came in. *)
Lemma quant_error_int16 c s :
  is_uint16 c -> is_int16 s -> is_int16 (quant_error c s).
Proof.
  unfold is_uint16, is_int16, quant_error. intros Hc Hs.
  pose proof (quantized_cases c s). lia.
Qed.

Lemma dither_step c p :
  color_ok c -> residuals_ok p ->
  dither (set_color c p) =
    (pack24 (quantized (r c) (residual0 p)) (quantized (g c) (residual1 p))
            (quantized (b c) (residual2 p)),
     mkHPixel c (quant_error (r c) (residual0 p))
                (quant_error (g c) (residual1 p))
                (quant_error (b c) (residual2 p))).
Proof.
  intros (Hr & Hg & Hb) (H0 & H1 & H2).
  unfold dither, set_color; cbn [color residual0 residual1 residual2].
  rewrite !error16_exact, !round8_quantized by assumption.
  rewrite pack24_lor by apply quantized_range.
  reflexivity.
Qed.

Lemma dither_step_ok c p :
  color_ok c -> residuals_ok p -> residuals_ok (snd (dither (set_color c p))).
Proof.
  intros Hc Hp. rewrite dither_step by assumption. cbn [snd].
  destruct Hc as (Hr & Hg & Hb), Hp as (H0 & H1 & H2).
  unfold residuals_ok; cbn [residual0 residual1 residual2].
  repeat split; apply quant_error_int16; assumption.
Qed.

Lemma red_pack24 r8 g8 b8 :
  is_uint8 r8 -> is_uint8 g8 -> is_uint8 b8 ->
  red (pack24 r8 g8 b8) = r8 /\ green (pack24 r8 g8 b8) = g8 /\
  blue (pack24 r8 g8 b8) = b8.
Proof.
  intros Hr Hg Hb. unfold red, green, blue.
  change 0xFF with (Z.ones 8). rewrite !Z.land_ones by lia.
  rewrite !Z.shiftr_div_pow2 by lia.
  exact (pack24_bytes r8 g8 b8 Hr Hg Hb).
Qed.

Lemma quantized_uint8 c s : is_uint8 (quantized c s).
Proof. pose proof (quantized_range c s). unfold is_uint8. lia. Qed.

(** Nothing is lost over a run of frames, in any component: the
    colours asked for add up to the levels emitted, each expanded
    back to 16 bits, plus what the residual gained. *)
Lemma emitted_balance cs : forall p,
  Forall color_ok cs -> residuals_ok p ->
  sum (map r cs) =
    257 * sum (map red (emitted cs p)) + residual0 (frames cs p) - residual0 p /\
  sum (map g cs) =
    257 * sum (map green (emitted cs p)) + residual1 (frames cs p) - residual1 p /\
  sum (map b cs) =
    257 * sum (map blue (emitted cs p)) + residual2 (frames cs p) - residual2 p.
Proof.
  induction cs as [|c cs IH]; intros p Hcs Hp.
  - cbn. lia.
  - inversion Hcs as [|? ? Hc Hcs']; subst.
    cbn [emitted frames map sum fold_right].
    specialize (IH (snd (dither (set_color c p))) Hcs'
                   (dither_step_ok c p Hc Hp)).
    fold (sum (map r cs)) (sum (map g cs)) (sum (map b cs)).
    fold (sum (map red (emitted cs (snd (dither (set_color c p)))))).
    fold (sum (map green (emitted cs (snd (dither (set_color c p)))))).
    fold (sum (map blue (emitted cs (snd (dither (set_color c p)))))).
    destruct IH as (IHr & IHg & IHb). rewrite IHr, IHg, IHb.
    rewrite dither_step by assumption. cbn [fst snd].
    destruct (red_pack24 _ _ _ (quantized_uint8 (r c) (residual0 p))
                (quantized_uint8 (g c) (residual1 p))
                (quantized_uint8 (b c) (residual2 p))) as (-> & -> & ->).
    cbn [residual0 residual1 residual2]. unfold quant_error. lia.
Qed.

Lemma fresh_ok c0 : residuals_ok (fresh c0).
Proof. unfold residuals_ok, is_int16, fresh; cbn. lia. Qed.

(** Temporal dithering keeps the time average: over any run of
    frames from a pixel without residual, the sum of the 16-bit
    colours asked for and the sum of the 8-bit levels emitted, each
    expanded back to 16 bits (times 257), differ by the residual
    left, which lies in [-383, 127] however long the run. *)
Theorem dither_keeps_average (c0 : HColor) (cs : list HColor) :
  Forall color_ok cs ->
  let ws := emitted cs (fresh c0) in
  let p := frames cs (fresh c0) in
  sum (map r cs) - 257 * sum (map red ws) = residual0 p /\
  sum (map g cs) - 257 * sum (map green ws) = residual1 p /\
  sum (map b cs) - 257 * sum (map blue ws) = residual2 p /\
  -383 <= sum (map r cs) - 257 * sum (map red ws) <= 127 /\
  -383 <= sum (map g cs) - 257 * sum (map green ws) <= 127 /\
  -383 <= sum (map b cs) - 257 * sum (map blue ws) <= 127.
Proof.
  intros Hcs. cbv zeta.
  destruct (emitted_balance cs _ Hcs (fresh_ok c0)) as (Hr & Hg & Hb).
  cbn [fresh residual0 residual1 residual2] in Hr, Hg, Hb.
  assert (residual_within (-383) 127 (frames cs (fresh c0))) as (B0 & B1 & B2).
  { apply frames_preserve_bound; [assumption|].
    unfold residual_within, fresh; simpl; lia. }
  repeat split; lia.
Qed.

Lemma dither_keeps_average_witness :
  sum (map r [mkHColor 200 0 0; mkHColor 200 0 0; mkHColor 200 0 0])
  - 257 * sum (map red (emitted [mkHColor 200 0 0; mkHColor 200 0 0;
                                 mkHColor 200 0 0] (fresh (mkHColor 0 0 0))))
  = residual0 (frames [mkHColor 200 0 0; mkHColor 200 0 0; mkHColor 200 0 0]
                      (fresh (mkHColor 0 0 0))).
Proof.
  apply (dither_keeps_average (mkHColor 0 0 0)
           [mkHColor 200 0 0; mkHColor 200 0 0; mkHColor 200 0 0]).
  repeat constructor; unfold is_uint16; simpl; lia.
Defined.

(** One frame of a held 8-bit level: the level emitted and the
    residual carried on are the ones tabulated. *)
Lemma held_step v k :
  is_uint8 v ->
  quantized (v * 257) (held_residual v k) = held_level v k /\
  quant_error (v * 257) (held_residual v k) = held_residual v (S k) /\
  is_int16 (held_residual v k).
Proof.
  unfold is_uint8, is_int16, held_level, held_residual, quant_error.
  intros Hv.
  rewrite Nat.even_succ, <- Nat.negb_even.
  change (S k =? 0)%nat with false.
  destruct (Z.leb_spec v 127) as [H127|H127];
    destruct (Z.eqb_spec v 255) as [H255|H255]; cbn [orb];
    try (pose proof (quantized_cases (v * 257) 0); lia);
    destruct (Z.eqb_spec v 128) as [H128|H128];
    destruct (Nat.even k); cbn [negb];
    try (pose proof (quantized_cases (v * 257) 0);
         pose proof (quantized_cases (v * 257) (-257)); lia);
    destruct (Nat.eqb_spec k 0);
    pose proof (quantized_cases (v * 257) 0);
    pose proof (quantized_cases (v * 257) (-257)); lia.
Qed.

Lemma emitted_held rv gv bv n :
  is_uint8 rv -> is_uint8 gv -> is_uint8 bv ->
  forall k p,
    residual0 p = held_residual rv k ->
    residual1 p = held_residual gv k ->
    residual2 p = held_residual bv k ->
    emitted (repeat (HColor8 rv gv bv) n) p =
      map (fun i => pack24 (held_level rv i) (held_level gv i) (held_level bv i))
          (seq k n).
Proof.
  intros Hr Hg Hb.
  assert (color_ok (HColor8 rv gv bv)) as Hc.
  { unfold color_ok, HColor8; cbn [r g b]. rewrite !expand8_mul by assumption.
    unfold is_uint8, is_uint16 in *. lia. }
  induction n as [|n IH]; intros k p H0 H1 H2; [reflexivity|].
  cbn [repeat emitted seq map].
  destruct (held_step rv k Hr) as (Qr & Er & Ir).
  destruct (held_step gv k Hg) as (Qg & Eg & Ig).
  destruct (held_step bv k Hb) as (Qb & Eb & Ib).
  rewrite dither_step;
    [|exact Hc|unfold residuals_ok; rewrite H0, H1, H2; auto].
  cbn [fst snd]. unfold HColor8 at 1 2 3; cbn [r g b].
  rewrite !expand8_mul by assumption.
  rewrite H0, H1, H2, Qr, Qg, Qb. f_equal.
  apply IH; cbn [residual0 residual1 residual2];
    unfold HColor8; cbn [r g b]; rewrite expand8_mul by assumption;
    congruence.
Qed.

(** An 8-bit colour goes through the dithering as its own level only
    for components up to 127 and for 255. Hold the colour
    [HColor8 (r, g, b)] from a pixel without residual: the word
    emitted at frame i packs, for each component v, v itself when
    v <= 127 or v = 255; 129 and 127 in turn when v = 128; and v + 1
    at frame 0, v from frame 1 on, when 129 <= v <= 254. *)
Theorem held_colour_levels (rv gv bv : Z) (n : nat) (c0 : HColor) :
  is_uint8 rv -> is_uint8 gv -> is_uint8 bv ->
  emitted (repeat (HColor8 rv gv bv) n) (fresh c0) =
    map (fun i => pack24 (held_level rv i) (held_level gv i) (held_level bv i))
        (seq 0 n).
Proof.
  intros Hr Hg Hb. apply emitted_held; trivial;
    unfold fresh, held_residual; cbn [residual0 residual1 residual2];
    cbn [Nat.even Nat.eqb];
    repeat match goal with |- context [if ?c then _ else _] => destruct c end;
    reflexivity.
Qed.

Lemma held_colour_levels_witness :
  emitted (repeat (HColor8 200 128 100) 3) (fresh (mkHColor 0 0 0)) =
    [pack24 201 129 100; pack24 200 127 100; pack24 200 129 100].
Proof.
  apply (held_colour_levels 200 128 100 3 (mkHColor 0 0 0));
    unfold is_uint8; lia.
Defined.

Lemma set_color_same p : set_color (color p) p = p.
Proof. now destruct p. Qed.

Lemma settled_dither p :
  settled p ->
  settled (snd (dither p)) /\ color (snd (dither p)) = color p /\
  0 <= fst (dither p) < 2 ^ 24.
Proof.
  intros (Hc & Hres).
  assert (residuals_ok p) as Hok.
  { destruct Hres as (H0 & H1 & H2). unfold residuals_ok, is_int16. lia. }
  assert (dither p = dither (set_color (color p) p)) as ->
    by now rewrite set_color_same.
  split; [split|split].
  - rewrite dither_exact by assumption. exact Hc.
  - now apply dither_preserves_bound.
  - now rewrite dither_exact.
  - rewrite dither_step by assumption. cbn [fst]. unfold pack24.
    pose proof (quantized_range (r (color p)) (residual0 p)).
    pose proof (quantized_range (g (color p)) (residual1 p)).
    pose proof (quantized_range (b (color p)) (residual2 p)).
    lia.
Qed.

(** What the loop of [show] does from index [k] on. *)
Lemma show_from_spec pixels : forall k,
  Z.of_nat (k + List.length pixels) < 2 ^ 32 ->
  fst (show_from (Z.of_nat k) pixels) =
    map (fun ip => setPixel (Z.of_nat (fst ip)) (fst (dither (snd ip))))
        (combine (seq k (List.length pixels)) pixels) /\
  snd (show_from (Z.of_nat k) pixels) = map (fun p => snd (dither p)) pixels.
Proof.
  induction pixels as [|p rest IH]; intros k Hk; [split; reflexivity|].
  cbn [show_from List.length seq combine map fst snd].
  cbn [List.length] in Hk. change (2 ^ 32) with 4294967296 in *.
  rewrite (to_uint32_small (Z.of_nat k + 1)) by lia.
  replace (Z.of_nat k + 1) with (Z.of_nat (S k)) by lia.
  destruct (IH (S k) ltac:(lia)) as (IHc & IHp).
  destruct (dither p) as [w p'].
  destruct (show_from (Z.of_nat (S k)) rest) as [calls rest'].
  cbn [fst snd] in *. now rewrite IHc, IHp.
Qed.

(** Whatever a pixel holds, [dither] leaves its colour alone, returns
    a 24-bit word and stores residuals that fit their [int16_t]
    fields. *)
Lemma dither_any p :
  color (snd (dither p)) = color p /\
  0 <= fst (dither p) < 2 ^ 24 /\
  residuals_ok (snd (dither p)).
Proof.
  assert (forall x, 0 <= round8 x <= 255) as Hr8
    by (intros x; unfold round8; lia).
  assert (forall x y, is_int16 (error16 x y)) as He16.
  { intros x y. unfold error16, to_int16, is_int16.
    generalize (to_int32 (x - to_int32 (y * 257))). intros e.
    change (2 ^ 15) with 32768. change (2 ^ 16) with 65536.
    pose proof (Z.mod_pos_bound (e + 32768) 65536 ltac:(lia)). lia. }
  unfold dither. cbv zeta. cbn [fst snd color residual0 residual1 residual2].
  split; [reflexivity|]. split.
  - rewrite pack24_lor by apply Hr8. unfold pack24.
    pose proof (Hr8 (sum16 (r (color p)) (residual0 p))).
    pose proof (Hr8 (sum16 (g (color p)) (residual1 p))).
    pose proof (Hr8 (sum16 (b (color p)) (residual2 p))).
    lia.
  - unfold residuals_ok. cbn [residual0 residual1 residual2].
    repeat split; apply He16.
Qed.

(** [HPixelBuffer::show] sets every LED once, in the order of the
    indices, to the dithered word of its pixel, a 24-bit value, and
    then calls the driver's [show] once. This holds of every buffer,
    whatever its pixels hold: the buffer keeps its colours, and the
    residuals it is left with fit their [int16_t] fields. Pixels with
    a 16-bit colour and residuals in [-383, 127] keep them there, so
    the buffer can be shown again. *)
Theorem show_sets_every_led (pixels : list HPixel) :
  Z.of_nat (List.length pixels) < 2 ^ 32 ->
  fst (show pixels) =
    map (fun ip => setPixel (Z.of_nat (fst ip)) (fst (dither (snd ip))))
        (combine (seq 0 (List.length pixels)) pixels) ++ [show_leds] /\
  Forall rgb24_call (fst (show pixels)) /\
  map color (snd (show pixels)) = map color pixels /\
  Forall residuals_ok (snd (show pixels)) /\
  (Forall settled pixels -> Forall settled (snd (show pixels))).
Proof.
  intros Hlen.
  destruct (show_from_spec pixels 0 ltac:(cbn [Nat.add]; exact Hlen))
    as (Hc & Hp).
  unfold show. change (Z.of_nat 0) with 0 in Hc, Hp.
  destruct (show_from 0 pixels) as [calls pixels']. cbn [fst snd] in *.
  subst calls pixels'.
  split; [reflexivity|]. split; [|split; [|split]].
  - apply Forall_app. split; [|repeat constructor].
    apply Forall_forall. intros call Hin.
    apply in_map_iff in Hin as ((k & p) & <- & Hin).
    unfold rgb24_call. cbn [fst snd]. apply dither_any.
  - rewrite map_map. apply map_ext. intros p. apply dither_any.
  - apply Forall_map. apply Forall_forall. intros p _. apply dither_any.
  - intros Hset. apply Forall_map. rewrite Forall_forall in *. intros p Hin.
    apply settled_dither. now apply Hset.
Qed.

(** A buffer whose first pixel carries a residual of 1000, outside of
    the interval the dithering keeps, and the residual it is left with. *)
Lemma show_sets_every_led_witness :
  fst (show [mkHPixel (mkHColor 1 2 3) 1000 0 0; fresh (HColor8 255 128 0)]) =
    [setPixel 0 (fst (dither (mkHPixel (mkHColor 1 2 3) 1000 0 0)));
     setPixel 1 (fst (dither (fresh (HColor8 255 128 0))));
     show_leds].
Proof.
  apply (show_sets_every_led
           [mkHPixel (mkHColor 1 2 3) 1000 0 0; fresh (HColor8 255 128 0)]).
  vm_compute. reflexivity.
Defined.

End ColorExtras.

(** ** Facts about [startup.c] *)

Module StartupFacts.
Import CInt CIntFacts Startup.









(** [_sbrk] hands out adjacent blocks. Over a run of calls during
    which the break stays a 32-bit address, every call returns the
    break as the calls before it left it, the start plus the sum of
    their increments, so each block begins where the one before it
    ends and a release by a negative increment is taken back exactly;
    the break ends at the start plus the sum of all increments. No
    call is refused. *)
Theorem sbrk_blocks_are_adjacent (incrs : list Z) : forall brk,
  break_in_range incrs brk ->
  snd (sbrk_run incrs brk) = brk + total incrs /\
  List.length (fst (sbrk_run incrs brk)) = List.length incrs /\
  forall i, (i < List.length incrs)%nat ->
            nth i (fst (sbrk_run incrs brk)) 0 = brk + total (firstn i incrs).
Proof.
  induction incrs as [|incr rest IH]; intros brk Hrange.
  - cbn. split; [lia|split; [reflexivity|]]. intros i Hi. lia.
  - cbn [sbrk_run]. unfold _sbrk.
    pose proof (Hrange 1%nat ltac:(cbn; lia)) as H1.
    cbn [firstn total fold_right] in H1.
    change (2 ^ 32) with 4294967296 in H1.
    rewrite to_uint32_small by lia.
    destruct (IH (brk + incr)) as (Hfin & Hlen & Hnth).
    { intros i Hi. specialize (Hrange (S i) ltac:(cbn; lia)).
      cbn [firstn total fold_right] in Hrange. fold (total (firstn i rest)) in Hrange.
      lia. }
    destruct (sbrk_run rest (brk + incr)) as [ptrs final]. cbn [fst snd] in *.
    cbn [total fold_right List.length]. fold (total rest).
    split; [lia|split; [lia|]].
    intros [|i] Hi; cbn [nth firstn total fold_right]; [lia|].
    fold (total (firstn i rest)). rewrite Hnth by lia. lia.
Qed.

Lemma sbrk_blocks_are_adjacent_witness :
  snd (sbrk_run [16; 32; -32; 8] 0x1FFFE018) = 0x1FFFE018 + total [16; 32; -32; 8].
Proof.
  apply (sbrk_blocks_are_adjacent [16; 32; -32; 8] 0x1FFFE018).
  intros i Hi.
  destruct i as [|[|[|[|[|i]]]]]; cbn in Hi |- *; lia.
Defined.

End StartupFacts.

(** ** More facts about [arm_kinetis_debug.cpp] *)

Module DebugExtras.
Import CInt CIntFacts Debug DebugFacts.

Local Open Scope nat_scope.

Lemma written_app a b : written (a ++ b) = written a || written b.
Proof. apply existsb_app. Qed.

Lemma halt_failure_logged_app a b :
  halt_failure_logged (a ++ b) = halt_failure_logged a || halt_failure_logged b.
Proof. apply existsb_app. Qed.

Lemma ap_writes_app a b : ap_writes (a ++ b) = ap_writes a ++ ap_writes b.
Proof. apply filter_app. Qed.

Lemma ap_written_app a b : ap_written (a ++ b) = ap_written b ++ ap_written a.
Proof. unfold ap_written. now rewrite ap_writes_app, map_app, rev_app_distr. Qed.

Lemma last_readback_app a b :
  last_readback (a ++ b) =
    match last_readback a with Some e => Some e | None => last_readback b end.
Proof.
  unfold last_readback. rewrite filter_app.
  now destruct (filter is_mem_load a).
Qed.

Lemma halt_attempts_filter evs :
  halt_attempts evs = List.length (filter is_mem_load evs).
Proof. reflexivity. Qed.

Lemma quiet_readings evs :
  quiet evs ->
  halt_attempts evs = 0 /\ last_readback evs = None /\ ap_written evs = [] /\
  written evs = false /\ halt_failure_logged evs = false.
Proof.
  intros (Hl & Hw & Hwr & Hh).
  unfold halt_attempts, count, last_readback, ap_written.
  rewrite Hl, Hw. auto.
Qed.

Section Target.
Variable regs : RegMap.
Variable wire : Wire.

(** A poll only reads and logs; one that succeeds had no failed
    read and logged nothing, and it ends on the word it returns,
    which carries the expected bits. *)
Lemma spec_apReadPoll_quiet addr mask expected retries :
  spec (apReadPoll wire addr mask expected retries)
       (fun r evs =>
          quiet evs /\
          forall data, r = Some data ->
            faulted evs = false /\ error_logged evs = false /\
            hd_error evs = Some (ApRead addr (Ack data)) /\
            Z.land data mask = Z.land (to_uint32 expected) mask).
Proof.
  induction retries as [|n IH]; cbn [apReadPoll].
  - eapply spec_bind; [apply spec_log|].
    intros _ evs ->. apply spec_ret. cbn.
    split; [repeat split|discriminate].
  - eapply spec_bind; [apply spec_apRead|].
    intros rep evs ->. destruct rep as [|data].
    + apply spec_ret. cbn. split; [repeat split|discriminate].
    + destruct (Z.eqb_spec (Z.land data mask)
                           (Z.land (to_uint32 expected) mask)) as [Heq|Hne].
      * apply spec_ret. cbn. split; [repeat split|].
        intros d [= <-]. auto.
      * eapply spec_weaken; [apply IH|].
        intros r evs ((Hl & Hw & Hwr & Hh) & Hok).
        unfold quiet.
        rewrite !filter_app, !ap_writes_app, !written_app,
                !halt_failure_logged_app, !faulted_app, !error_logged_app,
                Hl, Hw, Hwr, Hh.
        cbn. split; [repeat split|].
        intros d Hd. destruct (Hok d Hd) as (Hf & He & Hhd & Hm).
        rewrite Hf, He. repeat split; trivial.
        destruct evs; [discriminate Hhd | exact Hhd].
Qed.

(** How the halt loop ends, entered with [retries] between 1 and the
    fuel: it is left after [retries - rest] attempts, none of which
    failed, on a read-back that shows S_HALT when [rest] is not
    zero; or one of its transactions failed. *)
Lemma spec_haltLoop_exit fuel : forall retries,
  (1 <= retries <= Z.of_nat fuel)%Z -> (retries < 2 ^ 32)%Z ->
  spec (haltLoop regs wire fuel retries)
       (fun r evs =>
          ap_writes evs = [] /\ error_logged evs = false /\
          halt_failure_logged evs = false /\
          match r with
          | None => False
          | Some LoopReturnedFalse => faulted evs = true
          | Some (LoopLeft rest dhcsr) =>
              faulted evs = false /\ (0 <= rest)%Z /\
              Z.of_nat (halt_attempts evs) = (retries - rest)%Z /\
              last_readback evs = Some (MemLoad (REG_SCB_DHCSR regs) (Ack dhcsr)) /\
              (rest <> 0%Z -> s_halt dhcsr = true)
          end).
Proof.
  induction fuel as [|fuel' IH]; intros retries Hr Hlt; [lia|].
  cbn [haltLoop]. unfold require, reading.
  rewrite (to_uint32_small (retries - 1)) by lia.
  eapply spec_bind; [apply spec_memStore|]. intros ok evs1 ->.
  destruct ok; [|apply spec_ret; cbn; auto].
  eapply spec_bind; [apply spec_memLoad|]. intros rep evs2 ->.
  destruct rep as [|dhcsr]; [apply spec_ret; cbn; auto|].
  destruct (Z.eqb_spec (retries - 1) 0) as [Hz|Hnz];
    destruct (Z.land dhcsr (Z.shiftl 1 17) =? 0)%Z eqn:Hbit; cbn [andb negb];
    try (apply spec_ret; cbn; unfold s_halt; rewrite ?Hbit;
         repeat split; (lia || reflexivity || (intros; lia))).
  eapply spec_weaken; [apply (IH (retries - 1)%Z); lia|].
  intros r evs (Hw & He & Hh & Hres).
  rewrite !ap_writes_app, !error_logged_app, !halt_failure_logged_app,
          Hw, He, Hh.
  cbn. repeat split.
  destruct r as [[rest dh|]|]; [|now rewrite !faulted_app, Hres|assumption].
  destruct Hres as (Hf & Hl & Ha & Hlast & Hbit').
  rewrite !faulted_app, !halt_attempts_app, !last_readback_app, Hf, Hlast.
  cbn. repeat split; trivial. lia.
Qed.

End Target.

Ltac prim' :=
  first [ apply spec_apRead | apply spec_apWrite | apply spec_memStore
        | apply spec_memLoad | apply spec_initMemPort
        | apply spec_memStoreAndVerify | apply spec_log
        | apply spec_apReadPoll_quiet
        | apply spec_haltLoop_exit; lia ].

(** Runs a function to each of its return points, keeping what each
    test on the way decided. *)
Ltac run' :=
  repeat lazymatch goal with
  | |- spec (bind _ _) _ =>
      eapply spec_bind; [prim' | cbv beta; intros ? ? ?]
  | |- spec (ret _) _ => apply spec_ret
  | |- spec (if ?c then _ else _) _ => destruct c eqn:?
  | |- spec (match ?r with _ => _ end) _ => destruct r eqn:?
  end.

(** Brings what is known of the events of each step into the form of
    equations on the readings. *)
Ltac known' :=
  repeat match goal with
  | H : _ /\ _ |- _ => destruct H
  | H : ?evs = _ :: _ |- _ => subst evs
  | H : quiet _ |- _ => apply quiet_readings in H
  | H : forall data, Some ?d = Some data -> _ |- _ => specialize (H d eq_refl)
  | H : forall data, None = Some data -> _ |- _ => clear H
  | H : negb _ = false |- _ => apply negb_false_iff in H
  | H : negb _ = true |- _ => apply negb_true_iff in H
  | H : (_ =? _)%Z = true |- _ => apply Z.eqb_eq in H
  | H : (_ =? _)%Z = false |- _ => apply Z.eqb_neq in H
  end.

Ltac readings :=
  rewrite ?faulted_app, ?error_logged_app, ?written_app,
          ?halt_failure_logged_app, ?halt_attempts_app, ?ap_reads_app,
          ?last_readback_app, ?ap_written_app, ?ap_writes_app;
  repeat match goal with
  | H : ?f ?e = _ |- _ => is_var e; rewrite H
  end;
  cbn.

(** [startup] succeeds only on a supported chip that came to a halt in
    time. When it returns true, no transaction failed and no error was
    logged; the first thing it did was to read the IDR, which was
    0x001C0000; and the core was halted within its first 49 attempts:
    the last read-back of DHCSR shows S_HALT. *)
Theorem startup_success_means_halted (regs : RegMap) (wire : Wire) (fuel : nat) :
  50 <= fuel ->
  let s := startup regs wire fuel init in
  fst s = Some true ->
  faulted (trace (snd s)) = false /\
  error_logged (trace (snd s)) = false /\
  (exists rest,
     trace (snd s) = rest ++ [ApRead (REG_MDM_IDR regs) (Ack 0x001C0000)]) /\
  halt_attempts (trace (snd s)) <= 49 /\
  exists dhcsr,
    last_readback (trace (snd s)) =
      Some (MemLoad (REG_SCB_DHCSR regs) (Ack dhcsr)) /\
    s_halt dhcsr = true.
Proof.
  intros Hfuel. cbv zeta.
  assert (spec (startup regs wire fuel)
            (fun res evs =>
               res = Some true ->
               faulted evs = false /\ error_logged evs = false /\
               (exists rest,
                  evs = rest ++ [ApRead (REG_MDM_IDR regs) (Ack 0x001C0000)]) /\
               halt_attempts evs <= 49 /\
               exists dhcsr,
                 last_readback evs =
                   Some (MemLoad (REG_SCB_DHCSR regs) (Ack dhcsr)) /\
                 s_halt dhcsr = true)) as Hspec.
  { unfold startup, require, reading, polling. cbv zeta.
    generalize 2000 as budget. intros budget.
    run'; intros Hres; try discriminate Hres.
    known'. subst.
    split; [|split; [|split; [eexists; reflexivity|split]]]; readings.
    - reflexivity.
    - reflexivity.
    - lia.
    - eexists. split; [reflexivity|]. auto. }
  destruct (Hspec init) as (evs & Ht & Hq).
  cbn [trace init] in Ht. rewrite app_nil_r in Ht. rewrite Ht.
  exact Hq.
Qed.

Lemma startup_success_means_halted_witness :
  halt_attempts (trace (snd (startup mk20dx128 (halting_on 7) 50 init))) <= 49.
Proof.
  apply (startup_success_means_halted mk20dx128 (halting_on 7) 50).
  - lia.
  - vm_compute. reflexivity.
Defined.

(** [startup] reports that it failed to halt the core exactly when the
    loop made all of its 50 attempts and no transaction failed,
    whatever the 50th read-back of DHCSR shows; it then returns
    false. *)
Theorem halt_failure_means_budget_spent
  (regs : RegMap) (wire : Wire) (fuel : nat) :
  50 <= fuel ->
  let s := startup regs wire fuel init in
  (halt_failure_logged (trace (snd s)) = true <->
   faulted (trace (snd s)) = false /\ halt_attempts (trace (snd s)) = 50) /\
  (halt_failure_logged (trace (snd s)) = true -> fst s = Some false).
Proof.
  intros Hfuel. cbv zeta.
  assert (spec (startup regs wire fuel)
            (fun res evs =>
               (halt_failure_logged evs = true <->
                faulted evs = false /\ halt_attempts evs = 50) /\
               (halt_failure_logged evs = true -> res = Some false))) as Hspec.
  { unfold startup, require, reading, polling. cbv zeta.
    generalize 2000 as budget. intros budget.
    run'; known'; subst; readings;
      (split; [split|]); intros; try discriminate; try reflexivity;
      try (intuition (discriminate || lia)). }
  destruct (Hspec init) as (evs & Ht & Hq).
  cbn [trace init] in Ht. rewrite app_nil_r in Ht. rewrite Ht.
  exact Hq.
Qed.

Lemma halt_failure_means_budget_spent_witness :
  fst (startup mk20dx128 (halting_on 50) 50 init) = Some false.
Proof.
  apply (halt_failure_means_budget_spent mk20dx128 (halting_on 50) 50).
  - lia.
  - vm_compute. reflexivity.
Defined.

Lemma ap_written_nil evs : ap_writes evs = [] -> ap_written evs = [].
Proof. unfold ap_written. now intros ->. Qed.

(** [startup] drives the resets in one order. The words it writes to
    the access port, oldest first, are always a beginning of the
    sequence: hold the core in reset, request the system reset,
    release both; each goes to the MDM control register, and nothing
    else is ever written to the port. *)
Theorem startup_resets_in_order (regs : RegMap) (wire : Wire) (fuel : nat) :
  50 <= fuel ->
  exists k,
    ap_written (trace (snd (startup regs wire fuel init))) =
      firstn k (reset_sequence regs).
Proof.
  intros Hfuel.
  assert (spec (startup regs wire fuel)
            (fun _ evs => exists k, ap_written evs = firstn k (reset_sequence regs)))
    as Hspec.
  { unfold startup, require, reading, polling. cbv zeta.
    generalize 2000 as budget. intros budget.
    run'; known';
      repeat match goal with
      | H : ap_writes ?e = [] |- _ => apply ap_written_nil in H
      end;
      readings;
      first [ exists 0; reflexivity | exists 1; reflexivity
            | exists 2; reflexivity | exists 3; reflexivity ]. }
  destruct (Hspec init) as (evs & Ht & Hq).
  cbn [trace init] in Ht. rewrite app_nil_r in Ht. now rewrite Ht.
Qed.

Lemma startup_resets_in_order_witness :
  exists k,
    ap_written (trace (snd (startup mk20dx128 stuck_in_reset 50 init))) =
      firstn k (reset_sequence mk20dx128).
Proof.
  apply (startup_resets_in_order mk20dx128 stuck_in_reset 50). lia.
Defined.

(** [flashMassErase] reports success only for an erase that was
    commanded and seen to end. When it returns true, no transaction
    failed and no error was logged, the one word written is the
    erase command to the MDM control register, and the status read
    last has FLASH_ERASE_ACK clear and FLASH_READY set. *)
Theorem flashMassErase_success_means_erased (regs : RegMap) (wire : Wire) :
  let e := flashMassErase regs wire init in
  fst e = true ->
  faulted (trace (snd e)) = false /\
  error_logged (trace (snd e)) = false /\
  ap_written (trace (snd e)) =
    [(REG_MDM_CONTROL regs,
      Z.lor (REG_MDM_CONTROL_CORE_HOLD_RESET regs)
            (REG_MDM_CONTROL_MASS_ERASE regs))] /\
  exists status,
    hd_error (trace (snd e)) = Some (ApRead (REG_MDM_STATUS regs) (Ack status)) /\
    Z.land status (REG_MDM_STATUS_FLASH_ERASE_ACK regs) = 0%Z /\
    has_flag status (REG_MDM_STATUS_FLASH_READY regs).
Proof.
  cbv zeta.
  assert (spec (flashMassErase regs wire)
            (fun res evs =>
               res = true ->
               faulted evs = false /\ error_logged evs = false /\
               ap_written evs =
                 [(REG_MDM_CONTROL regs,
                   Z.lor (REG_MDM_CONTROL_CORE_HOLD_RESET regs)
                         (REG_MDM_CONTROL_MASS_ERASE regs))] /\
               exists status,
                 hd_error evs = Some (ApRead (REG_MDM_STATUS regs) (Ack status)) /\
                 Z.land status (REG_MDM_STATUS_FLASH_ERASE_ACK regs) = 0%Z /\
                 has_flag status (REG_MDM_STATUS_FLASH_READY regs))) as Hspec.
  { unfold flashMassErase, require, reading.
    generalize 10000 as budget. intros budget.
    run'; intros Hres; try discriminate Hres.
    known'.
    match goal with
    | H : hd_error ?e = Some (ApRead _ (Ack ?st)),
      Hm : Z.land ?st _ = Z.land (to_uint32 0) _,
      Hr : Z.land ?st _ <> 0%Z |- _ =>
        split; [|split; [|split; [|exists st; split; [|split; [|exact Hr]]]]];
        [ | | | rewrite app_nil_l, <- !app_assoc; apply hd_error_app_some, H
              | rewrite Hm; apply Z.land_0_l ]
    end; readings; reflexivity. }
  destruct (Hspec init) as (evs & Ht & Hq).
  cbn [trace init] in Ht. rewrite app_nil_r in Ht. rewrite Ht.
  exact Hq.
Qed.

Lemma flashMassErase_success_means_erased_witness :
  ap_written (trace (snd (flashMassErase mk20dx128 (fun _ => Ack 0x22) init)))
    = [(0x01000004, 0x11)%Z].
Proof.
  apply (flashMassErase_success_means_erased mk20dx128 (fun _ => Ack 0x22)).
  vm_compute. reflexivity.
Defined.

(** [startup] leaves a chip it does not know alone. When the read of
    the IDR fails it returns false at once, without a log line; when
    the IDR is not 0x001C0000 it logs that no supported MDM-AP was
    found and returns false. In both cases that one read is all that
    happened: whenever [startup] writes anything to the target, the
    IDR it read first was 0x001C0000. *)
Theorem startup_rejects_unknown_chip (regs : RegMap) (wire : Wire) (fuel : nat) :
  let s := startup regs wire fuel init in
  (wire 0 = Fault ->
   s = (Some false, mkPort 1 [ApRead (REG_MDM_IDR regs) Fault])) /\
  (forall idr, wire 0 = Ack idr -> idr <> 0x001C0000%Z ->
   s = (Some false,
        mkPort 1 [Log LOG_ERROR
                      "ARMKinetisDebug: Didn't find a supported MDM-AP peripheral" [];
                  ApRead (REG_MDM_IDR regs) (Ack idr)])) /\
  (written (trace (snd s)) = true -> wire 0 = Ack 0x001C0000%Z).
Proof.
  cbv zeta.
  destruct (startup regs wire fuel init) as [res p] eqn:E. cbn [fst snd].
  unfold startup, reading in E. unfold bind at 1 in E.
  unfold apRead, transact in E. cbn [tick trace init] in E.
  destruct (wire 0) as [|idr].
  { injection E as <- <-. cbn. repeat split; congruence. }
  destruct (Z.eqb_spec idr 0x001C0000) as [Heq|Hne]; cbn [negb] in E.
  { subst idr. repeat split; congruence. }
  injection E as <- <-. cbn. repeat split; congruence.
Qed.


End DebugExtras.
